(** * Feed discovery engine (feed_finder.py): a shallow embedding

    The Python module is asynchronous, exception-driven code around three
    external collaborators (an HTTP client, a feed parser, an HTML parser).
    It is embedded as follows.

    - Effects: a state-and-exception monad [M] that also returns the list of
      observable events a computation produced (lock operations, sleeps, HTTP
      requests, log records).  A raised exception keeps the state reached so
      far, as in Python.
    - Collaborators: a record [Env] of functions.  Each may return or raise.
      The HTTP transport and the feed parser are indexed by the number of
      requests issued so far, so the same URL or body may be answered
      differently over time.
    - Numbers: [int] is [Z]; a [float] is the rational [Q] it denotes, kept
      in lowest terms; an argument that may be either is a [number].  The
      division and the subtraction of the rate limiter are the machine's, a
      parameter ([Float_ops]); the delays of the retry strategy, a [float]
      times a power of two, are exact as long as they are finite.
    - Time: the clock moves on by the length of each sleep, and not
      otherwise.
    - Strings: [string] of 8-bit characters; [str.lower] acts on [A-Z]. *)

From Stdlib Require Import ZArith QArith List String Ascii Bool Lia.
Import ListNotations.
Local Open Scope string_scope.
Local Open Scope list_scope.
Local Open Scope Z_scope.

(** ** Python helpers *)

(** [str(e)]: an exception is represented by its message. *)
Definition exn := string.

Inductive res (A : Type) : Type :=
| Ret (a : A)
| Exc (e : exn).
Arguments Ret {A} a.
Arguments Exc {A} e.

(** [s.startswith(p)] *)
Fixpoint startswith (p s : string) : bool :=
  match p, s with
  | EmptyString, _ => true
  | String a p', String b s' => Ascii.eqb a b && startswith p' s'
  | String _ _, EmptyString => false
  end.

(** [s.rstrip(c)] for a one-character argument *)
Fixpoint rstrip (c : ascii) (s : string) : string :=
  match s with
  | EmptyString => EmptyString
  | String a s' =>
      match rstrip c s' with
      | EmptyString => if Ascii.eqb a c then EmptyString else String a EmptyString
      | r => String a r
      end
  end.

Definition lower_ascii (a : ascii) : ascii :=
  let n := N_of_ascii a in
  if (65 <=? n)%N && (n <=? 90)%N then ascii_of_N (n + 32) else a.

(** [s.lower()].  Outside ASCII only two code points have a lower case that
    holds an ASCII letter: U+0130 gives [i] followed by a combining dot and
    U+212A gives [k].  Neither can complete one of the words this program
    looks for ([atom], [rss], [feed], [subscribe]), so for its tests the
    lower case of [A-Z] is all that matters. *)
Fixpoint lower (s : string) : string :=
  match s with
  | EmptyString => EmptyString
  | String a s' => String (lower_ascii a) (lower s')
  end.

(** [needle in s] *)
Fixpoint contains (needle s : string) : bool :=
  startswith needle s ||
  match s with
  | EmptyString => false
  | String _ s' => contains needle s'
  end.

(** [s] ends with the character [c]. *)
Fixpoint endswith_char (c : ascii) (s : string) : bool :=
  match s with
  | EmptyString => false
  | String a EmptyString => Ascii.eqb a c
  | String _ s' => endswith_char c s'
  end.

(** [c * k] *)
Fixpoint repeat_char (c : ascii) (k : nat) : string :=
  match k with
  | O => EmptyString
  | S k' => String c (repeat_char c k')
  end.

(** truth value of a [str] *)
Definition nonempty (s : string) : bool :=
  match s with EmptyString => false | String _ _ => true end.

(** [d.get(k)] on a dictionary with string keys and values *)
Fixpoint dict_get (d : list (string * string)) (k : string) : option string :=
  match d with
  | [] => None
  | (k', v) :: d' => if String.eqb k' k then Some v else dict_get d' k
  end.

(** [d.get(k, default)] *)
Definition dict_get_default (d : list (string * string)) (k default : string) : string :=
  match dict_get d k with Some v => v | None => default end.

(** [range(n)] *)
Definition range (n : Z) : list Z := map Z.of_nat (seq 0 (Z.to_nat n)).

(** A Python number: an [int] or a [float]. *)
Inductive number :=
| Int (z : Z)
| Float (q : Q).

Definition to_Q (x : number) : Q :=
  match x with
  | Int z => inject_Z z
  | Float q => q
  end.

(** Binary floating point, as far as the rate limiter computes with it: the
    quotient and the difference of two [float]s as the machine rounds
    them. *)
Record Float_ops := {
  float_div : Q -> Q -> Q;
  float_sub : Q -> Q -> Q
}.

(** Arithmetic without rounding: what the machine does on numbers whose
    quotient and difference are [float]s themselves. *)
Definition exact : Float_ops := {| float_div := Qdiv; float_sub := Qminus |}.

(** [a < b] on rationals, as a boolean *)
Definition Qltb (a b : Q) : bool := negb (Qle_bool b a).

(** [max(a, b)]: the first argument unless the second is strictly larger *)
Definition py_max (a b : Q) : Q := if Qltb a b then b else a.

(** ** Data model *)

Inductive FeedType := rss | atom.

(** The dictionary [_check_feed_url] returns. *)
Record Feed := { feed_url : string; feed_type : FeedType; feed_title : string }.

Inductive Status := success | error.

(** The dictionary [_discover_feeds] returns. *)
Record SiteResult := {
  url : string;
  feeds : list Feed;
  status : Status;
  error_message : option string
}.

(** What [feedparser.parse] returns, as far as the code reads it: the
    [bozo] entry ([False]/[True] read as 0/1) and the [feed] dictionary. *)
Record ParsedFeed := {
  bozo : option Z;
  feed : option (list (string * string))
}.

(** One tag of a parsed HTML page: name, attributes and [get_text()]. *)
Record Element := {
  tag_name : string;
  attrs : list (string * string);
  get_text : string
}.

(** [aiohttp.ClientSession(timeout=ClientTimeout(total=t), max_redirects=r)] *)
Record Session := { total_timeout : Z; session_max_redirects : Z }.

(** ** Observable events and mutable state *)

Inductive Event :=
| ELockAcquire                                  (* RateLimiter._lock taken *)
| ELockRelease                                  (* RateLimiter._lock released *)
| ERead (timestamp : Q)                         (* self.last_request read *)
| EWrite (timestamp : Q)                        (* self.last_request assigned *)
| ESleep (seconds : Q)                          (* asyncio.sleep *)
| EGet (request_url : string)                   (* session.get *)
| EParse (content : string)                     (* feedparser.parse *)
| EWarning (attempt : Z) (msg : exn) (delay : Q) (* logger.warning *)
| EError (request_url : string) (msg : exn).    (* logger.error *)

Record State := {
  clock : Q;               (* what time.time() returns *)
  last_request : Q;        (* RateLimiter.last_request *)
  requests : nat;          (* HTTP requests issued so far *)
  result_feeds : list Feed (* the list object held in result['feeds'] *)
}.

(** ** The effect monad *)

Definition M (A : Type) : Type := State -> res A * State * list Event.

Definition ret {A} (a : A) : M A := fun s => (Ret a, s, []).

Definition raise {A} (e : exn) : M A := fun s => (Exc e, s, []).

Definition bind {A B} (m : M A) (f : A -> M B) : M B := fun s =>
  match m s with
  | (Ret a, s1, ev1) =>
      match f a s1 with (r, s2, ev2) => (r, s2, ev1 ++ ev2) end
  | (Exc e, s1, ev1) => (Exc e, s1, ev1)
  end.

(** [try: m  except Exception as e: h e] *)
Definition try_except {A} (m : M A) (h : exn -> M A) : M A := fun s =>
  match m s with
  | (Ret a, s1, ev1) => (Ret a, s1, ev1)
  | (Exc e, s1, ev1) =>
      match h e s1 with (r, s2, ev2) => (r, s2, ev1 ++ ev2) end
  end.

(** [m], then [cleanup] whether or not [m] raised (a context manager's exit) *)
Definition finally {A} (m : M A) (cleanup : M unit) : M A := fun s =>
  match m s with
  | (r, s1, ev1) =>
      match cleanup s1 with
      | (Ret _, s2, ev2) => (r, s2, ev1 ++ ev2)
      | (Exc e, s2, ev2) => (Exc e, s2, ev1 ++ ev2)
      end
  end.

Definition lift {A} (r : res A) : M A := fun s => (r, s, []).

Definition emit (e : Event) : M unit := fun s => (Ret tt, s, [e]).

Declare Scope monad_scope.
Delimit Scope monad_scope with monad.
Notation "x <- m ;; k" := (bind m (fun x => k))
  (at level 100, m at next level, right associativity) : monad_scope.
Notation "m ;; k" := (bind m (fun _ => k))
  (at level 100, right associativity) : monad_scope.
Local Open Scope monad_scope.

(** [time.time()] *)
Definition time_time : M Q := fun s => (Ret (clock s), s, []).

(** [await asyncio.sleep(d)]: the clock moves on by [d]; a delay that is
    not positive only yields. *)
Definition asyncio_sleep (d : Q) : M unit := fun s =>
  (Ret tt,
   {| clock := Qred (clock s + py_max 0 d); last_request := last_request s;
      requests := requests s; result_feeds := result_feeds s |},
   [ESleep d]).

Definition get_feeds : M (list Feed) := fun s => (Ret (result_feeds s), s, []).

Definition set_feeds (l : list Feed) : M unit := fun s =>
  (Ret tt,
   {| clock := clock s; last_request := last_request s;
      requests := requests s; result_feeds := l |},
   []).

(** ** class RateLimiter *)

Module RateLimiter.

Record t := { rate : number }.

(** [__init__(self, requests_per_second=2.0)]; [last_request] is in [State]. *)
Definition init (requests_per_second : option number) : t :=
  {| rate := match requests_per_second with Some r => r | None => Float 2 end |}.

(** [self.last_request], read *)
Definition get_last_request : M Q := fun s =>
  (Ret (last_request s), s, [ERead (last_request s)]).

(** [self.last_request = v] *)
Definition set_last_request (v : Q) : M unit := fun s =>
  (Ret tt,
   {| clock := clock s; last_request := v;
      requests := requests s; result_feeds := result_feeds s |},
   [EWrite v]).

(** [str(e)] of the [ZeroDivisionError] of [1/x] *)
Definition zero_division (x : number) : exn :=
  match x with
  | Int _ => "division by zero"
  | Float _ => "float division by zero"
  end.

(** [1/self.rate]: division by zero raises. *)
Definition interval (F : Float_ops) (self : t) : M Q :=
  if Qeq_bool (to_Q (rate self)) 0 then raise (zero_division (rate self))
  else ret (float_div F 1 (to_Q (rate self))).

(** [async with self._lock: body] *)
Definition with_lock {A} (body : M A) : M A :=
  emit ELockAcquire ;; finally body (emit ELockRelease).

(** [max(0, 1/self.rate - (now - self.last_request))] *)
Definition wait_for (F : Float_ops) (period now last : Q) : Q :=
  py_max 0 (Qred (float_sub F period (float_sub F now last))).

Definition acquire (F : Float_ops) (self : t) : M unit :=
  with_lock (
    now <- time_time ;;
    period <- interval F self ;;
    last <- get_last_request ;;
    let wait_time := wait_for F period now last in
    (if Qltb 0 wait_time then asyncio_sleep wait_time else ret tt) ;;
    t1 <- time_time ;;
    set_last_request t1).

End RateLimiter.

(** ** class RetryStrategy *)

Module RetryStrategy.

(** [base_delay] is the [float] of its annotation. *)
Record t := { max_retries : Z; base_delay : Q }.

(** [__init__(self, max_retries=3, base_delay=1.0)] *)
Definition init (max_retries : option Z) (base_delay : option Q) : t :=
  {| max_retries := match max_retries with Some n => n | None => 3 end;
     base_delay := match base_delay with Some d => d | None => 1 end |}.

(** [base_delay * (2 ** attempt)], for an attempt of [range(max_retries)],
    so never negative: the [int] power is converted to a [float] first,
    which raises [OverflowError] from [2 ** 1024] on.  Below that the
    product is exact as long as it is a finite [float]; the statements that
    depend on its value carry that bound ([finite_float]). *)
Definition backoff (self : t) (attempt : Z) : res Q :=
  if 1024 <=? attempt then Exc "int too large to convert to float"
  else Ret (base_delay self * inject_Z (2 ^ attempt))%Q.

(** One pass of the loop body: [Some a] when the [try] block returned [a],
    [None] when the handler slept and the loop goes on. *)
Definition attempt_once {A} (self : t) (coroutine : M A) (attempt : Z) : M (option A) :=
  try_except
    (a <- coroutine ;; ret (Some a))
    (fun e =>
       if attempt =? max_retries self - 1 then raise e
       else
         delay <- lift (backoff self attempt) ;;
         emit (EWarning (attempt + 1) e delay) ;;
         asyncio_sleep delay ;;
         ret None).

(** [for attempt in attempts: ...]; falling off the loop returns [None]. *)
Fixpoint execute_loop {A} (self : t) (coroutine : M A) (attempts : list Z) : M (option A) :=
  match attempts with
  | [] => ret None
  | attempt :: rest =>
      r <- attempt_once self coroutine attempt ;;
      match r with
      | Some a => ret (Some a)
      | None => execute_loop self coroutine rest
      end
  end.

Definition execute {A} (self : t) (coroutine : M A) : M (option A) :=
  execute_loop self coroutine (range (max_retries self)).

End RetryStrategy.

(** ** External collaborators *)

(** - [ClientSession timeout max_redirects]: session setup (leaving the
      [async with] block is taken not to raise);
    - [session_get session n url]: the [n]-th request of the run, a GET of
      [url] followed by [response.text()]: body and status, or a failure;
    - [feedparser_parse n content]: [feedparser.parse(content)] once [n]
      requests were issued.  The library takes a string that reads as a URL
      or as a file name for a resource to open, so what it answers for a
      body is not a function of the body alone, and it may touch the
      network itself: each call is recorded as an [EParse] event;
    - [BeautifulSoup content]: the page as the list of its tags in document
      order;
    - [urljoin base url]: [urllib.parse.urljoin], which raises [ValueError]
      on some malformed URLs (a bracketed host that is no IPv6 address);
    - [running_loop]: whether the caller of [find_feed] is itself running
      inside an event loop;
    - [arith]: the floating point of the machine. *)
Record Env := {
  ClientSession : Z -> Z -> res Session;
  session_get : Session -> nat -> string -> res (string * Z);
  feedparser_parse : nat -> string -> res ParsedFeed;
  BeautifulSoup : string -> res (list Element);
  urljoin : string -> string -> res string;
  running_loop : bool;
  arith : Float_ops
}.

(** An operation that issues one request, answers it from a script indexed by
    the request counter, and counts it. *)
Definition scripted {A} (answer : nat -> res A) (u : string) : M A := fun s =>
  (answer (requests s),
   {| clock := clock s; last_request := last_request s;
      requests := S (requests s); result_feeds := result_feeds s |},
   [EGet u]).

(** [for x in items: acc = body acc x] *)
Fixpoint for_in {A S} (items : list A) (body : S -> A -> M S) (acc : S) : M S :=
  match items with
  | [] => ret acc
  | x :: rest => acc' <- body acc x ;; for_in rest body acc'
  end.

(** [content, status = value]: unpacking [None] raises [TypeError]. *)
Definition unpack {A} (value : option A) : M A :=
  match value with
  | Some v => ret v
  | None => raise "cannot unpack non-iterable NoneType object"
  end.

(** [asyncio.run(main)]: refused inside a running event loop, before [main]
    is started. *)
Definition asyncio_run {A} (running : bool) (main : M A) : M A :=
  if running then raise "asyncio.run() cannot be called from a running event loop"
  else main.

(** [if feed_info: feeds.append(feed_info)] on a local list *)
Definition append_if (feeds : list Feed) (feed_info : option Feed) : list Feed :=
  match feed_info with
  | Some f => feeds ++ [f]
  | None => feeds
  end.

(** [result['feeds'].append(f)] *)
Definition append_feed (f : Feed) : M unit :=
  fs <- get_feeds ;; set_feeds (fs ++ [f]).

(** [result['feeds'].extend(l)] *)
Definition extend_feeds (l : list Feed) : M unit :=
  fs <- get_feeds ;; set_feeds (fs ++ l).

(** ** class FeedFinder *)

Module FeedFinder.

Definition COMMON_PATHS : list string :=
  [ "/feed"; "/rss"; "/atom.xml"; "/feed.xml"; "/rss.xml"; "/index.xml";
    "/feed/atom"; "/feed/rss"; "/rss/atom"; "/blog/feed"; "/blog.atom";
    "/feed/wp-rss2.xml"; "/wp-feed.php"; "/wp-rss.php";
    "/blog/index.rss"; "/syndication.axd" ].

Record t := {
  timeout : Z;
  max_redirects : Z;
  rate_limiter : RateLimiter.t;
  retry_strategy : RetryStrategy.t
}.

(** [__init__(self, timeout=10, max_redirects=5, max_retries=3,
    requests_per_second=2.0)]: an argument left out is [None] here. *)
Definition init (timeout max_redirects max_retries : option Z)
    (requests_per_second : option number) : t :=
  {| timeout := match timeout with Some v => v | None => 10 end;
     max_redirects := match max_redirects with Some v => v | None => 5 end;
     rate_limiter :=
       RateLimiter.init
         (Some (match requests_per_second with Some v => v | None => Float 2 end));
     retry_strategy :=
       RetryStrategy.init
         (Some (match max_retries with Some v => v | None => 3 end)) None |}.

Definition _clean_url (url : string) : string :=
  let url :=
    if startswith "http://" url || startswith "https://" url then url
    else ("https://" ++ url)%string in
  rstrip "/" url.

Section WithEnv.

Variable E : Env.

(** The inner [_fetch()] of [_fetch_url]. *)
Definition _fetch (session : Session) (url : string) : M (string * Z) :=
  scripted (fun n => session_get E session n url) url.

Definition _fetch_url (self : t) (session : Session) (url : string)
    : M (option (string * Z)) :=
  RateLimiter.acquire (arith E) (rate_limiter self) ;;
  try_except
    (RetryStrategy.execute (retry_strategy self) (_fetch session url))
    (fun e => emit (EError url e) ;; ret (Some ("", 0))).

(** ['atom' if 'atom' in content.lower() else 'rss'] *)
Definition classify (content : string) : FeedType :=
  if contains "atom" (lower content) then atom else rss.

(** [feed.get('bozo', 1) == 0 and feed.get('feed', {})] *)
Definition well_formed (parsed : ParsedFeed) : bool :=
  (match bozo parsed with Some b => b | None => 1 end =? 0) &&
  match feed parsed with
  | Some (_ :: _) => true
  | _ => false
  end.

(** [feed.feed.get('title', '')] *)
Definition title_of (parsed : ParsedFeed) : string :=
  match feed parsed with
  | Some d => dict_get_default d "title" ""
  | None => ""
  end.

(** [feedparser.parse(content)] *)
Definition parse_feed (content : string) : M ParsedFeed := fun s =>
  (feedparser_parse E (requests s) content, s, [EParse content]).

(** Lines 119-129 of [_check_feed_url]: what follows the fetch. *)
Definition validate (url content : string) (status : Z) : M (option Feed) :=
  if negb (status =? 200) || negb (nonempty content) then ret None
  else
    parsed <- parse_feed content ;;
    if well_formed parsed then
      ret (Some {| feed_url := url;
                   feed_type := classify content;
                   feed_title := title_of parsed |})
    else ret None.

Definition _check_feed_url (self : t) (session : Session) (url : string)
    : M (option Feed) :=
  fetched <- _fetch_url self session url ;;
  pair <- unpack fetched ;;
  validate url (fst pair) (snd pair).

(** [link.get('type') in ['application/rss+xml', 'application/atom+xml']] *)
Definition has_feed_type (link : Element) : bool :=
  match dict_get (attrs link) "type" with
  | Some ty => String.eqb ty "application/rss+xml" || String.eqb ty "application/atom+xml"
  | None => false
  end.

(** [any(word in text for word in ['rss', 'feed', 'atom', 'subscribe'])] *)
Definition mentions_feed (text : string) : bool :=
  existsb (fun word => contains word text) ["rss"; "feed"; "atom"; "subscribe"].

(** [soup.find_all('link')] *)
Definition find_all_link (soup : list Element) : list Element :=
  filter (fun el => String.eqb (tag_name el) "link") soup.

(** [soup.find_all('a', href=True)] *)
Definition find_all_a_href (soup : list Element) : list Element :=
  filter (fun el => String.eqb (tag_name el) "a" &&
                    match dict_get (attrs el) "href" with Some _ => true | None => false end)
         soup.

(** Body of the first loop of [_find_feeds_in_html]. *)
Definition link_step (self : t) (session : Session) (url : string)
    (feeds : list Feed) (link : Element) : M (list Feed) :=
  if has_feed_type link then
    feed_url <- lift (urljoin E url (dict_get_default (attrs link) "href" "")) ;;
    if nonempty feed_url then
      feed_info <- _check_feed_url self session feed_url ;;
      ret (append_if feeds feed_info)
    else ret feeds
  else ret feeds.

(** Body of the second loop of [_find_feeds_in_html]. *)
Definition anchor_step (self : t) (session : Session) (url : string)
    (feeds : list Feed) (link : Element) : M (list Feed) :=
  let href := dict_get_default (attrs link) "href" "" in
  let text := lower (get_text link) in
  if mentions_feed text then
    feed_url <- lift (urljoin E url href) ;;
    feed_info <- _check_feed_url self session feed_url ;;
    ret (append_if feeds feed_info)
  else ret feeds.

Definition _find_feeds_in_html (self : t) (session : Session)
    (url content : string) : M (list Feed) :=
  soup <- lift (BeautifulSoup E content) ;;
  feeds <- for_in (find_all_link soup) (link_step self session url) [] ;;
  for_in (find_all_a_href soup) (anchor_step self session url) feeds.

(** Lines 173-177: the loop over [COMMON_PATHS]. *)
Definition probe (self : t) (session : Session) (url : string)
    (_ : unit) (path : string) : M unit :=
  feed_url <- lift (urljoin E url path) ;;
  feed_info <- _check_feed_url self session feed_url ;;
  match feed_info with
  | Some f => append_feed f
  | None => ret tt
  end.

Definition known_path_phase (self : t) (session : Session) (url : string) : M unit :=
  for_in COMMON_PATHS (probe self session url) tt.

(** Lines 181-184: the body of [if not result['feeds']]. *)
Definition html_fallback_phase (self : t) (session : Session) (url : string) : M unit :=
  fetched <- _fetch_url self session url ;;
  pair <- unpack fetched ;;
  if (snd pair =? 200) && nonempty (fst pair) then
    html_feeds <- _find_feeds_in_html self session url (fst pair) ;;
    extend_feeds html_feeds
  else ret tt.

(** Lines 168-184: what runs inside [try]. *)
Definition discover_body (self : t) (url : string) : M unit :=
  session <- lift (ClientSession E (timeout self) (max_redirects self)) ;;
  known_path_phase self session url ;;
  fs <- get_feeds ;;
  match fs with
  | [] => html_fallback_phase self session url
  | _ :: _ => ret tt
  end.

Definition _discover_feeds (self : t) (url : string) : M SiteResult :=
  let url := _clean_url url in
  set_feeds [] ;;
  outcome <- try_except
               (discover_body self url ;; ret (success, None))
               (fun e => ret (error, Some e)) ;;
  fs <- get_feeds ;;
  ret {| url := url; feeds := fs;
         status := fst outcome; error_message := snd outcome |}.

(** [asyncio.run(self._discover_feeds(url))]: the one task of a fresh loop. *)
Definition find_feed (self : t) (url : string) : M SiteResult :=
  asyncio_run (running_loop E) (_discover_feeds self url).

End WithEnv.

(** *** process_file

    The CSV reader and writer are collaborators: the input is the list of
    rows [csv.DictReader] yields, each a dictionary from column name to
    field (a field the row lacks has no entry), and the output is the list
    of rows handed to [writer.writerow], in order. *)

(** [a or b] on values that are [None] or a [str] *)
Definition py_or (a b : option string) : option string :=
  match a with
  | Some (String _ _) => a
  | _ => b
  end.

(** [value or default] with a [str] default *)
Definition str_or (value : option string) (default : string) : string :=
  match py_or value (Some default) with
  | Some v => v
  | None => default
  end.

(** Lines 209-212: the body of the loop over the input rows. *)
Definition add_row_url (urls : list string) (row : list (string * string)) : list string :=
  match py_or (dict_get row "blog_url") (dict_get row "url") with
  | Some (String _ _ as url) => urls ++ [url]
  | _ => urls
  end.

(** Lines 206-212: the URLs read from the input rows. *)
Definition process_file_urls (rows : list (list (string * string))) : list string :=
  fold_left add_row_url rows [].

(** [feed['type']] and [result['status']] as the strings they are. *)
Definition type_str (ty : FeedType) : string :=
  match ty with atom => "atom" | rss => "rss" end.

Definition status_str (st : Status) : string :=
  match st with success => "success" | error => "error" end.

Definition HEADER : list string :=
  ["Blog URL"; "Feed URL"; "Feed Type"; "Status"; "Error"].

(** Lines 221-237: the rows written for one result. *)
Definition result_rows (result : SiteResult) : list (list string) :=
  match feeds result with
  | _ :: _ =>
      map (fun feed =>
             [url result; feed_url feed; type_str (feed_type feed);
              status_str (status result); str_or (error_message result) ""])
          (feeds result)
  | [] =>
      [[url result; ""; ""; status_str (status result);
        str_or (error_message result) "No feeds found"]]
  end.

(** Lines 216-237: everything written to the output file. *)
Definition process_file_rows (results : list SiteResult) : list (list string) :=
  HEADER :: flat_map result_rows results.

(** [process_file]: read the URLs, run the batch, then write.  The batch,
    [asyncio.run(self._process_urls(urls))], is a parameter: its tasks run
    concurrently and finish in any order.  Nothing is written when it
    raises. *)
Definition process_file (process_urls : list string -> M (list SiteResult))
    (rows : list (list (string * string))) : M (list (list string)) :=
  results <- process_urls (process_file_urls rows) ;;
  ret (process_file_rows results).

End FeedFinder.

(** ** Concrete collaborators, for running the model *)

Module Scenario.

(** Joins a site URL that has no path with an absolute path or an absolute
    URL.  An empty reference gives the base, as [urljoin] does; otherwise a
    bracket in the base or in the reference makes the join raise, as a
    bracketed host that is no IPv6 address does. *)
Definition join (base ref : string) : res string :=
  match ref with
  | EmptyString => Ret base
  | _ =>
      if contains "[" base || contains "[" ref then Exc "Invalid IPv6 URL"
      else if startswith "http://" ref || startswith "https://" ref then Ret ref
      else Ret (base ++ ref)%string
  end.

(** A feed parser: documents that open with [<rss] or [<feed] are well
    formed and titled, the document [boom] makes the parser raise, anything
    else is flagged malformed. *)
Definition parse (content : string) : res ParsedFeed :=
  if startswith "<rss" content || startswith "<feed" content then
    Ret {| bozo := Some 0; feed := Some [("title", "News")] |}
  else if String.eqb content "boom" then Exc "parser crashed"
  else Ret {| bozo := Some 1; feed := Some [] |}.

Definition link_tag (attributes : list (string * string)) : Element :=
  {| tag_name := "link"; attrs := attributes; get_text := "" |}.

Definition a_tag (href text : string) : Element :=
  {| tag_name := "a"; attrs := [("href", href)]; get_text := text |}.

(** An HTML parser that knows two pages; any other page has no tag. *)
Definition soup_of (content : string) : res (list Element) :=
  if String.eqb content "<html>both</html>" then
    Ret [ link_tag [("type", "application/rss+xml"); ("href", "/news")];
          a_tag "/news" "RSS Feed" ]
  else if String.eqb content "<html>nohref</html>" then
    Ret [ link_tag [("type", "application/atom+xml")] ]
  else Ret [].

(** A site that answers every request for a URL the same way, reached from
    outside any event loop.  Its arithmetic is exact: every number of these
    runs is a small multiple of 1/2, on which floating point does not
    round. *)
Definition env_of (site : string -> res (string * Z)) : Env :=
  {| ClientSession := fun t r => Ret {| total_timeout := t; session_max_redirects := r |};
     session_get := fun _ _ u => site u;
     feedparser_parse := fun _ => parse;
     BeautifulSoup := soup_of;
     urljoin := join;
     running_loop := false;
     arith := exact |}.

Definition not_found : res (string * Z) := Ret ("", 404).

(** Serves an Atom document at [/atom.xml] and 404 elsewhere. *)
Definition atom_site (u : string) : res (string * Z) :=
  if String.eqb u "https://blog.example/atom.xml"
  then Ret ("<feed xmlns='http://www.w3.org/2005/Atom'/>", 200)
  else not_found.

(** Serves feeds at [/feed] and [/rss.xml] only. *)
Definition two_feed_site (u : string) : res (string * Z) :=
  if String.eqb u "https://blog.example/feed" then Ret ("<rss one/>", 200)
  else if String.eqb u "https://blog.example/rss.xml" then Ret ("<rss two/>", 200)
  else not_found.

(** No known path; the home page links [/news] from a link tag and from an
    anchor, and [/news] is a feed. *)
Definition linked_site (u : string) : res (string * Z) :=
  if String.eqb u "https://blog.example" then Ret ("<html>both</html>", 200)
  else if String.eqb u "https://blog.example/news" then Ret ("<rss news/>", 200)
  else not_found.

(** No known path; the home page holds a feed link tag without [href]. *)
Definition nohref_site (u : string) : res (string * Z) :=
  if String.eqb u "https://blog.example" then Ret ("<html>nohref</html>", 200)
  else not_found.

(** [/feed] is a feed; the document at [/rss] makes the feed parser raise. *)
Definition crashing_site (u : string) : res (string * Z) :=
  if String.eqb u "https://blog.example/feed" then Ret ("<rss one/>", 200)
  else if String.eqb u "https://blog.example/rss" then Ret ("boom", 200)
  else not_found.

(** Every request fails at the network level. *)
Definition unreachable_site (_ : string) : res (string * Z) := Exc "connection refused".

(** A finder with every argument left at its default. *)
Definition finder : FeedFinder.t := FeedFinder.init None None None None.

(** The clock reads 100 s and nothing was requested yet. *)
Definition s0 : State :=
  {| clock := 100; last_request := 0; requests := 0; result_feeds := [] |}.

Definition session0 : Session := {| total_timeout := 10; session_max_redirects := 5 |}.

End Scenario.

(** ** Reading event traces *)



(** The requests of a trace ([session.get] calls), in order. *)
Fixpoint gets (evs : list Event) : list string :=
  match evs with
  | [] => []
  | EGet u :: rest => u :: gets rest
  | _ :: rest => gets rest
  end.

(** The bodies handed to the feed parser, in order. *)
Fixpoint parses (evs : list Event) : list string :=
  match evs with
  | [] => []
  | EParse content :: rest => content :: parses rest
  | _ :: rest => parses rest
  end.

(** The sleeps of a trace, in order. *)
Fixpoint sleeps (evs : list Event) : list Q :=
  match evs with
  | [] => []
  | ESleep d :: rest => d :: sleeps rest
  | _ :: rest => sleeps rest
  end.

(** The positive results of a run of checks, in order. *)
Fixpoint hits (outcomes : list (option Feed)) : list Feed :=
  match outcomes with
  | [] => []
  | Some f :: rest => f :: hits rest
  | None :: rest => hits rest
  end.

(** How often the lock was taken in a trace. *)
Fixpoint lock_acquisitions (evs : list Event) : nat :=
  match evs with
  | [] => 0%nat
  | ELockAcquire :: rest => S (lock_acquisitions rest)
  | _ :: rest => lock_acquisitions rest
  end.

(** How often [u] was requested in a trace. *)
Definition count_gets (u : string) (evs : list Event) : nat :=
  List.length (filter (String.eqb u) (gets evs)).

(** ** Vocabulary of the statements *)

(** The letters: lower case with upper case. *)
Definition LETTERS : list (ascii * ascii) :=
  combine (list_ascii_of_string "abcdefghijklmnopqrstuvwxyz")
          (list_ascii_of_string "ABCDEFGHIJKLMNOPQRSTUVWXYZ").

(** [c] is the character [l] of a word, in lower or in upper case. *)
Definition either_case (l c : ascii) : Prop := c = l \/ In (l, c) LETTERS.

(** [w] is [word], each letter in either case. *)
Fixpoint spells (word w : string) : Prop :=
  match word, w with
  | EmptyString, EmptyString => True
  | String l word', String c w' => either_case l c /\ spells word' w'
  | _, _ => False
  end.

(** [content] contains [word] in some mix of upper and lower case. *)
Definition mentions (word content : string) : Prop :=
  exists pre w post, content = (pre ++ w ++ post)%string /\ spells word w.

(** [c] is an upper-case letter; no character of [word] is one. *)
Definition capital (c : ascii) : bool :=
  existsb (fun p => Ascii.eqb (snd p) c) LETTERS.

Definition no_capital (word : string) : bool :=
  forallb (fun l => negb (capital l)) (list_ascii_of_string word).

(** [l1] is [l2] with some elements left out, order kept. *)
Inductive subseq {A : Type} : list A -> list A -> Prop :=
| subseq_nil : subseq [] []
| subseq_skip x l1 l2 : subseq l1 l2 -> subseq l1 (x :: l2)
| subseq_keep x l1 l2 : subseq l1 l2 -> subseq (x :: l1) (x :: l2).

(** The URL a row of the input gives, if it gives one. *)
Definition row_url (row : list (string * string)) : option string :=
  match FeedFinder.py_or (dict_get row "blog_url") (dict_get row "url") with
  | Some (String _ _ as url) => Some url
  | _ => None
  end.

(** The number of rows a result takes in the output. *)
Definition row_count (result : SiteResult) : nat :=
  Nat.max 1 (List.length (feeds result)).

(** A computation that leaves the list in [result['feeds']] as it is. *)
Definition keeps_feeds {A} (m : M A) : Prop :=
  forall s r s' ev, m s = (r, s', ev) -> result_feeds s' = result_feeds s.

(** [v], or [d] for an argument left out. *)
Definition or_default {A} (v : option A) (d : A) : A :=
  match v with Some x => x | None => d end.

(** The URL with its scheme, before the trailing slashes go. *)
Definition with_scheme (url : string) : string :=
  if startswith "http://" url || startswith "https://" url then url
  else ("https://" ++ url)%string.

(** The largest finite [float], and the rationals within its range. *)
Definition MAX_FLOAT : Q := inject_Z (2 ^ 1024 - 2 ^ 971).

Definition finite_float (x : Q) : Prop := (- MAX_FLOAT <= x /\ x <= MAX_FLOAT)%Q.

(** The rate of a limiter, as a rational. *)
Definition rate_of (self : RateLimiter.t) : Q := to_Q (RateLimiter.rate self).

(** The state [acquire] leaves when the rate is not zero: the clock has
    moved on by the wait, and the timestamp is the clock. *)
Definition acquired (F : Float_ops) (self : RateLimiter.t) (s : State) : State :=
  let w := RateLimiter.wait_for F (float_div F 1 (rate_of self)) (clock s) (last_request s) in
  let now := if Qltb 0 w then Qred (clock s + py_max 0 w) else clock s in
  {| clock := now; last_request := now;
     requests := requests s; result_feeds := result_feeds s |}.

(** The sleep of [acquire], if it makes one: empty when [1/rate] raises or
    the computed wait is not positive. *)
Definition acquire_sleep (F : Float_ops) (self : RateLimiter.t) (s : State) : list Event :=
  if Qeq_bool (rate_of self) 0 then []
  else
    let w := RateLimiter.wait_for F (float_div F 1 (rate_of self)) (clock s) (last_request s) in
    if Qltb 0 w then [ESleep w] else [].

(** What [acquire] does between taking the lock and releasing it: nothing
    when [1/rate] raises; otherwise it reads the timestamp, sleeps if it has
    to, and assigns the timestamp. *)
Definition acquire_critical (F : Float_ops) (self : RateLimiter.t) (s : State) : list Event :=
  if Qeq_bool (rate_of self) 0 then []
  else ERead (last_request s)
         :: acquire_sleep F self s ++ [EWrite (last_request (acquired F self s))].

(** The state after one scripted request. *)
Definition bump (s : State) : State :=
  {| clock := clock s; last_request := last_request s;
     requests := S (requests s); result_feeds := result_feeds s |}.

(** The state after [asyncio.sleep(d)]. *)
Definition slept (d : Q) (s : State) : State :=
  {| clock := Qred (clock s + py_max 0 d); last_request := last_request s;
     requests := requests s; result_feeds := result_feeds s |}.

(** The state with [l] as the list in [result['feeds']]. *)
Definition with_feeds (l : list Feed) (s : State) : State :=
  {| clock := clock s; last_request := last_request s;
     requests := requests s; result_feeds := l |}.

(** The state once a probe's outcome is recorded: a feed is appended. *)
Definition record_outcome (o : option Feed) (s : State) : State :=
  match o with
  | Some f => with_feeds (result_feeds s ++ [f]) s
  | None => s
  end.

(** The delays of the first [k] retries: [base_delay * 2^i] for [i < k]. *)
Definition delays (self : RetryStrategy.t) (k : Z) : list Q :=
  map (fun i => RetryStrategy.base_delay self * inject_Z (2 ^ i))%Q (range k).

(** The outcomes [/feed] gives [a], [/rss.xml] gives [b], nothing else validates. *)
Definition only_feed_and_rss_xml (a b : Feed) : list (option Feed) :=
  map (fun path =>
         if String.eqb path "/feed" then Some a
         else if String.eqb path "/rss.xml" then Some b
         else None)
      FeedFinder.COMMON_PATHS.


(** The reference of a tag: its [href], or the empty string without one. *)
Definition href_of (el : Element) : string := dict_get_default (attrs el) "href" "".

(** What a [link] tag adds to the candidates of a page: nothing unless its
    type is a feed type, else its resolved reference unless that is empty.
    [Exc] when resolving raises. *)
Definition link_candidate (E : Env) (url : string) (link : Element) : res (list string) :=
  if FeedFinder.has_feed_type link then
    match urljoin E url (href_of link) with
    | Ret feed_url => Ret (if nonempty feed_url then [feed_url] else [])
    | Exc e => Exc e
    end
  else Ret [].

(** What an anchor adds: its resolved reference when its text mentions a
    feed. *)
Definition anchor_candidate (E : Env) (url : string) (link : Element) : res (list string) :=
  if FeedFinder.mentions_feed (lower (get_text link)) then
    match urljoin E url (href_of link) with
    | Ret feed_url => Ret [feed_url]
    | Exc e => Exc e
    end
  else Ret [].

(** The candidates of all the items, in order; the first failure if
    resolving one of them raises. *)
Fixpoint collect {A B} (f : A -> res (list B)) (items : list A) : res (list B) :=
  match items with
  | [] => Ret []
  | x :: rest =>
      match f x with
      | Exc e => Exc e
      | Ret c =>
          match collect f rest with
          | Exc e => Exc e
          | Ret cs => Ret (c ++ cs)
          end
      end
  end.

(** The candidate URLs of a page, in the order [_find_feeds_in_html] reaches
    them: first those of the [link] tags, then those of the anchors that
    have an [href]. *)
Definition scan (E : Env) (url : string) (soup : list Element) : res (list string) :=
  match collect (link_candidate E url) (FeedFinder.find_all_link soup) with
  | Exc e => Exc e
  | Ret from_links =>
      match collect (anchor_candidate E url) (FeedFinder.find_all_a_href soup) with
      | Exc e => Exc e
      | Ret from_anchors => Ret (from_links ++ from_anchors)
      end
  end.

(** The transport served [content] with status 200 for [u], at some time. *)
Definition served (E : Env) (session : Session) (u content : string) : Prop :=
  exists n, session_get E session n u = Ret (content, 200).


(** [u] is [url] joined with a known path. *)
Definition known_path_url (E : Env) (url u : string) : Prop :=
  exists path, In path FeedFinder.COMMON_PATHS /\ urljoin E url path = Ret u.

(** Validate one candidate and append it when it is a feed. *)
Definition check_step (E : Env) (self : FeedFinder.t) (session : Session)
    (feeds : list Feed) (candidate : string) : M (list Feed) :=
  feed_info <- FeedFinder._check_feed_url E self session candidate ;;
  ret (append_if feeds feed_info).

(** Validate the candidates one after the other, keeping the feeds. *)
Definition check_all (E : Env) (self : FeedFinder.t) (session : Session)
    (candidates : list string) : M (list Feed) :=
  for_in candidates (check_step E self session) [].

Section Probing.

Variable E : Env.
Variable self : FeedFinder.t.

(** [probes session url paths s outcomes s' ev]: starting in [s], every path
    of [paths] was joined to [url] and probed, in order; no join and no
    check raised, probe [i] gave [outcomes[i]], and the run ended in [s']
    having emitted [ev]. *)
Inductive probes (session : Session) (url : string)
  : list string -> State -> list (option Feed) -> State -> list Event -> Prop :=
| probes_nil s : probes session url [] s [] s []
| probes_cons path paths s u o s1 ev1 os s2 ev2 :
    urljoin E url path = Ret u ->
    FeedFinder._check_feed_url E self session u s = (Ret o, s1, ev1) ->
    probes session url paths (record_outcome o s1) os s2 ev2 ->
    probes session url (path :: paths) s (o :: os) s2 (ev1 ++ ev2).


End Probing.

Module Run.
Import Scenario.

Definition site_url : string := "https://blog.example".

(** Three whole runs, from the raw URL [blog.example/]. *)
Definition crashing := FeedFinder._discover_feeds (env_of crashing_site) finder "blog.example/" s0.
Definition two_feeds := FeedFinder._discover_feeds (env_of two_feed_site) finder "blog.example/" s0.

(** The known-path phase of three runs. *)
Definition atom_known_paths :=
  FeedFinder.known_path_phase (env_of atom_site) finder session0
    (FeedFinder._clean_url "blog.example/") (with_feeds [] s0).
Definition linked_known_paths :=
  FeedFinder.known_path_phase (env_of linked_site) finder session0
    (FeedFinder._clean_url "blog.example/") (with_feeds [] s0).
Definition crashing_known_paths :=
  FeedFinder.known_path_phase (env_of crashing_site) finder session0
    (FeedFinder._clean_url "blog.example/") (with_feeds [] s0).

(** What the runs are expected to return. *)
Definition feed_at (path : string) : Feed :=
  {| feed_url := (site_url ++ path)%string; feed_type := rss; feed_title := "News" |}.

Definition crashing_result : SiteResult :=
  {| url := site_url; feeds := [feed_at "/feed"];
     status := error; error_message := Some "parser crashed" |}.

Definition two_feeds_result : SiteResult :=
  {| url := site_url; feeds := [feed_at "/feed"; feed_at "/rss.xml"];
     status := success; error_message := None |}.


(** Two transient failures, then a feed. *)
Definition flaky (n : nat) : res (string * Z) :=
  if (n <? 2)%nat then Exc "timeout" else Ret ("<rss/>", 200).

Definition always_failing (n : nat) : res (string * Z) := Exc "connection refused".

Definition default_retries : RetryStrategy.t := RetryStrategy.init None None.

(** A strategy that allows 1026 attempts and does not wait between them,
    run on the operation that always fails. *)
Definition patient : RetryStrategy.t := RetryStrategy.init (Some 1026) (Some 0%Q).

Definition overflowing :=
  RetryStrategy.execute patient (scripted always_failing "u") s0.

End Run.

(** More runs: a site that answers 404 everywhere, and a batch of one. *)
Module Case.
Import Scenario.

Definition empty_site (u : string) : res (string * Z) := not_found.

Definition empty_known_paths :=
  FeedFinder.known_path_phase (env_of empty_site) finder session0
    (FeedFinder._clean_url "blog.example/") (with_feeds [] s0).

(** The fetch of its home page, after the known-path phase. *)
Definition empty_fetch :=
  FeedFinder._fetch_url (env_of empty_site) finder session0
    (FeedFinder._clean_url "blog.example/") (snd (fst empty_known_paths)).

Definition unreachable_run :=
  FeedFinder.find_feed (env_of unreachable_site) finder "blog.example/" s0.

Definition no_feeds : SiteResult :=
  {| url := "https://blog.example"; feeds := [];
     status := success; error_message := None |}.

(** An input of three rows: one with [blog_url], one with an empty
    [blog_url] and a [url], one with neither. *)
Definition input : list (list (string * string)) :=
  [ [("blog_url", "blog.example/"); ("url", "other.example")];
    [("blog_url", ""); ("url", "news.example")];
    [("name", "nothing")] ].

(** A batch that runs its URLs one after the other, in order. *)
Definition one_by_one (E : Env) (self : FeedFinder.t) (urls : list string)
    : M (list SiteResult) :=
  for_in urls
    (fun results u => r <- FeedFinder._discover_feeds E self u ;; ret (results ++ [r])) [].

(** The same environment, entered from a running event loop. *)
Definition inside_loop (E : Env) : Env :=
  {| ClientSession := ClientSession E;
     session_get := session_get E;
     feedparser_parse := feedparser_parse E;
     BeautifulSoup := BeautifulSoup E;
     urljoin := urljoin E;
     running_loop := true;
     arith := arith E |}.

End Case.

(** ** Laws of the effect monad *)

Section MonadLaws.

Context {A B : Type}.

Lemma bind_ret (m : M A) (f : A -> M B) s a s1 ev1 r s2 ev2 :
  m s = (Ret a, s1, ev1) -> f a s1 = (r, s2, ev2) ->
  bind m f s = (r, s2, ev1 ++ ev2).
Proof. intros Hm Hf. unfold bind. now rewrite Hm, Hf. Qed.

Lemma bind_step (m : M A) (f : A -> M B) s a s1 ev1 :
  m s = (Ret a, s1, ev1) ->
  bind m f s = match f a s1 with (r, s2, ev2) => (r, s2, ev1 ++ ev2) end.
Proof. intros Hm. unfold bind. now rewrite Hm. Qed.

Lemma bind_exc (m : M A) (f : A -> M B) s e s1 ev1 :
  m s = (Exc e, s1, ev1) -> bind m f s = (Exc e, s1, ev1).
Proof. intros Hm. unfold bind. now rewrite Hm. Qed.

Lemma bind_inv (m : M A) (f : A -> M B) s r s2 ev :
  bind m f s = (r, s2, ev) ->
  (exists a s1 ev1 ev2,
      m s = (Ret a, s1, ev1) /\ f a s1 = (r, s2, ev2) /\ ev = ev1 ++ ev2) \/
  (exists e, m s = (Exc e, s2, ev) /\ r = Exc e).
Proof.
  unfold bind. destruct (m s) as [[[a | e] s1] ev1].
  - destruct (f a s1) as [[r' s'] ev2] eqn:Hf. intros [= <- <- <-].
    left. now exists a, s1, ev1, ev2.
  - intros [= <- <- <-]. right. now exists e.
Qed.

End MonadLaws.

Lemma try_except_ret {A} (m : M A) h s a s1 ev1 :
  m s = (Ret a, s1, ev1) -> try_except m h s = (Ret a, s1, ev1).
Proof. intros Hm. unfold try_except. now rewrite Hm. Qed.

Lemma try_except_exc {A} (m : M A) h s e s1 ev1 r s2 ev2 :
  m s = (Exc e, s1, ev1) -> h e s1 = (r, s2, ev2) ->
  try_except m h s = (r, s2, ev1 ++ ev2).
Proof. intros Hm Hh. unfold try_except. now rewrite Hm, Hh. Qed.

(** ** Frame: what leaves [result['feeds']] alone *)

Lemma keeps_bind {A B} (m : M A) (f : A -> M B) :
  keeps_feeds m -> (forall a, keeps_feeds (f a)) -> keeps_feeds (bind m f).
Proof.
  intros Hm Hf s r s' ev H.
  destruct (bind_inv _ _ _ _ _ _ H) as [(a & s1 & ev1 & ev2 & H1 & H2 & _) | (e & H1 & _)].
  - rewrite (Hf _ _ _ _ _ H2). eauto.
  - eauto.
Qed.

Lemma keeps_try {A} (m : M A) h :
  keeps_feeds m -> (forall e, keeps_feeds (h e)) -> keeps_feeds (try_except m h).
Proof.
  intros Hm Hh s r s' ev. unfold try_except.
  destruct (m s) as [[[a | e] s1] ev1] eqn:E1.
  - intros [= <- <- <-]. eauto.
  - destruct (h e s1) as [[r' s2] ev2] eqn:E2. intros [= <- <- <-].
    rewrite (Hh _ _ _ _ _ E2). eauto.
Qed.

Lemma keeps_finally {A} (m : M A) c :
  keeps_feeds m -> keeps_feeds c -> keeps_feeds (finally m c).
Proof.
  intros Hm Hc s r s' ev. unfold finally.
  destruct (m s) as [[r1 s1] ev1] eqn:E1.
  destruct (c s1) as [[[[] | e] s2] ev2] eqn:E2; intros [= <- <- <-];
    rewrite (Hc _ _ _ _ E2); eauto.
Qed.

Lemma keeps_ret {A} (a : A) : keeps_feeds (ret a).
Proof. now intros s r s' ev [= <- <- <-]. Qed.

Lemma keeps_raise {A} e : keeps_feeds (@raise A e).
Proof. now intros s r s' ev [= <- <- <-]. Qed.

Lemma keeps_lift {A} (x : res A) : keeps_feeds (lift x).
Proof. now intros s r s' ev [= <- <- <-]. Qed.

Lemma keeps_emit e : keeps_feeds (emit e).
Proof. now intros s r s' ev [= <- <- <-]. Qed.

Lemma keeps_sleep d : keeps_feeds (asyncio_sleep d).
Proof. now intros s r s' ev [= <- <- <-]. Qed.

Lemma keeps_time : keeps_feeds time_time.
Proof. now intros s r s' ev [= <- <- <-]. Qed.

Lemma keeps_scripted {A} (answer : nat -> res A) u : keeps_feeds (scripted answer u).
Proof. now intros s r s' ev [= <- <- <-]. Qed.

Lemma keeps_unpack {A} (v : option A) : keeps_feeds (unpack v).
Proof. destruct v; [apply keeps_ret | apply keeps_raise]. Qed.

Create HintDb frame.

#[local] Hint Resolve keeps_bind keeps_try keeps_finally keeps_ret keeps_raise
  keeps_lift keeps_emit keeps_sleep keeps_time keeps_scripted keeps_unpack : frame.

Lemma keeps_acquire F self : keeps_feeds (RateLimiter.acquire F self).
Proof.
  unfold RateLimiter.acquire, RateLimiter.with_lock, RateLimiter.interval.
  apply keeps_bind; [auto with frame | intros _].
  apply keeps_finally; [ | auto with frame].
  apply keeps_bind; [auto with frame | intros now].
  apply keeps_bind; [destruct (Qeq_bool _ _); auto with frame | intros period].
  apply keeps_bind; [now intros s r s' ev [= <- <- <-] | intros last].
  apply keeps_bind; [destruct (Qltb _ _); auto with frame | intros _].
  apply keeps_bind; [auto with frame | intros t1].
  now intros s r s' ev [= <- <- <-].
Qed.

Lemma keeps_attempt_once {A} self (op : M A) i :
  keeps_feeds op -> keeps_feeds (RetryStrategy.attempt_once self op i).
Proof.
  intros Hop. unfold RetryStrategy.attempt_once.
  apply keeps_try; [auto with frame | intros e].
  destruct (_ =? _); auto 6 with frame.
Qed.

Lemma keeps_execute_loop {A} self (op : M A) l :
  keeps_feeds op -> keeps_feeds (RetryStrategy.execute_loop self op l).
Proof.
  intros Hop. induction l as [ | i l IH]; simpl; [auto with frame | ].
  apply keeps_bind; [now apply keeps_attempt_once | intros [a | ]; auto with frame].
Qed.

Lemma keeps_fetch_url E self session u : keeps_feeds (FeedFinder._fetch_url E self session u).
Proof.
  unfold FeedFinder._fetch_url.
  apply keeps_bind; [apply keeps_acquire | intros _].
  apply keeps_try; [ | auto with frame].
  apply keeps_execute_loop. apply keeps_scripted.
Qed.

Lemma keeps_parse_feed E content : keeps_feeds (FeedFinder.parse_feed E content).
Proof. now intros s r s' ev [= <- <- <-]. Qed.

Lemma keeps_validate E u content st : keeps_feeds (FeedFinder.validate E u content st).
Proof.
  unfold FeedFinder.validate. destruct (_ || _); [auto with frame | ].
  apply keeps_bind; [apply keeps_parse_feed | intros parsed].
  destruct (FeedFinder.well_formed parsed); auto with frame.
Qed.

Lemma keeps_check_feed_url E self session u :
  keeps_feeds (FeedFinder._check_feed_url E self session u).
Proof.
  unfold FeedFinder._check_feed_url.
  apply keeps_bind; [apply keeps_fetch_url | intros fetched].
  apply keeps_bind; [auto with frame | intros pair]. apply keeps_validate.
Qed.

Lemma keeps_for_in {A S} (l : list A) (body : S -> A -> M S) :
  (forall acc x, keeps_feeds (body acc x)) -> forall acc, keeps_feeds (for_in l body acc).
Proof.
  intros Hb. induction l as [ | x l IH]; intros acc; simpl; [auto with frame | ].
  apply keeps_bind; auto.
Qed.

Lemma keeps_find_feeds_in_html E self session u content :
  keeps_feeds (FeedFinder._find_feeds_in_html E self session u content).
Proof.
  unfold FeedFinder._find_feeds_in_html.
  apply keeps_bind; [auto with frame | intros soup].
  apply keeps_bind; [ | intros feeds]; apply keeps_for_in; intros acc x.
  - unfold FeedFinder.link_step. destruct (FeedFinder.has_feed_type x); [ | auto with frame].
    apply keeps_bind; [auto with frame | intros feed_url].
    destruct (nonempty _); [ | auto with frame].
    apply keeps_bind; [apply keeps_check_feed_url | auto with frame].
  - unfold FeedFinder.anchor_step. destruct (FeedFinder.mentions_feed _); [ | auto with frame].
    apply keeps_bind; [auto with frame | intros feed_url].
    apply keeps_bind; [apply keeps_check_feed_url | auto with frame].
Qed.

(** ** RateLimiter.acquire and its lock *)

Lemma acquire_events F self s :
  snd (RateLimiter.acquire F self s) = ELockAcquire :: acquire_critical F self s ++ [ELockRelease].
Proof.
  unfold RateLimiter.acquire, RateLimiter.with_lock, RateLimiter.interval.
  unfold acquire_critical, acquire_sleep, acquired, rate_of.
  unfold bind, finally, emit, time_time, RateLimiter.get_last_request.
  cbn [fst snd clock last_request app].
  destruct (Qeq_bool (to_Q (RateLimiter.rate self)) 0); [reflexivity | ].
  unfold ret. cbn [fst snd clock last_request app].
  destruct (Qltb 0 _); reflexivity.
Qed.

Lemma acquire_run F self s :
  Qeq_bool (rate_of self) 0 = false ->
  RateLimiter.acquire F self s
  = (Ret tt, acquired F self s, ELockAcquire :: acquire_critical F self s ++ [ELockRelease]).
Proof.
  intros Hrate.
  unfold RateLimiter.acquire, RateLimiter.with_lock, RateLimiter.interval.
  unfold acquire_critical, acquire_sleep, acquired, rate_of in *.
  unfold bind, finally, emit, time_time, RateLimiter.get_last_request, ret.
  rewrite Hrate. cbn [fst snd clock last_request app].
  destruct (Qltb 0 _); reflexivity.
Qed.

(** With a rate of zero [1/self.rate] raises once the lock is taken, before
    the timestamp is read; the lock is released on the way out. *)
Lemma acquire_zero_rate F self s :
  Qeq_bool (rate_of self) 0 = true ->
  RateLimiter.acquire F self s
  = (Exc (RateLimiter.zero_division (RateLimiter.rate self)), s, [ELockAcquire; ELockRelease]).
Proof.
  intros Hrate.
  unfold RateLimiter.acquire, RateLimiter.with_lock, RateLimiter.interval, rate_of in *.
  unfold bind, finally, emit, time_time. now rewrite Hrate.
Qed.

Lemma acquire_returns F self s :
  Qeq_bool (rate_of self) 0 = false ->
  exists s', RateLimiter.acquire F self s = (Ret tt, s', snd (RateLimiter.acquire F self s)).
Proof. intros Hrate. rewrite (acquire_run F self s Hrate). now eexists. Qed.




(** ** The constructor's options *)

(** C8, as the claim has it, fails: no choice of constructor arguments gives
    the retry strategy a base delay of two seconds. *)
Lemma base_delay_not_configurable :
  ~ (forall d : Q, exists timeout max_redirects max_retries requests_per_second,
        RetryStrategy.base_delay
          (FeedFinder.retry_strategy
             (FeedFinder.init timeout max_redirects max_retries requests_per_second)) == d)%Q.
Proof.
  intros H. destruct (H 2%Q) as (t & r & m & q & Hd). simpl in Hd. discriminate Hd.
Qed.

(** C8, amended: the constructor takes four options, [timeout] (default
    10), [max_redirects] (default 5), [max_retries] (default 3) and
    [requests_per_second] (default 2.0), each stored where the engine reads
    it; the base delay of the retry backoff is 1.0 for every finder, so the
    delay before retry [i+1] is [2^i] seconds. *)
Theorem init_options (timeout max_redirects max_retries : option Z)
    (requests_per_second : option number) :
  let self := FeedFinder.init timeout max_redirects max_retries requests_per_second in
  FeedFinder.timeout self = or_default timeout 10
  /\ FeedFinder.max_redirects self = or_default max_redirects 5
  /\ RetryStrategy.max_retries (FeedFinder.retry_strategy self) = or_default max_retries 3
  /\ RateLimiter.rate (FeedFinder.rate_limiter self) = or_default requests_per_second (Float 2)
  /\ RetryStrategy.base_delay (FeedFinder.retry_strategy self) = 1%Q
  /\ forall i, 0 <= i < 1024 ->
       exists delay,
         RetryStrategy.backoff (FeedFinder.retry_strategy self) i = Ret delay
         /\ (delay == inject_Z (2 ^ i))%Q.
Proof.
  simpl. repeat split;
    try (destruct timeout; reflexivity);
    try (destruct max_redirects; reflexivity);
    try (destruct max_retries; reflexivity);
    try (destruct requests_per_second; reflexivity).
  intros i Hi. unfold RetryStrategy.backoff. simpl.
  destruct (1024 <=? i) eqn:Hle; [apply Z.leb_le in Hle; lia | ].
  eexists. split; [reflexivity | apply Qmult_1_l].
Qed.

(** ** RetryStrategy.execute *)

Section Retry.

Context {A : Type}.
Variable self : RetryStrategy.t.
Variable answer : nat -> res A.
Variable u : string.

Let op : M A := scripted answer u.

Let delay (i : Z) : Q := (RetryStrategy.base_delay self * inject_Z (2 ^ i))%Q.

Lemma backoff_below i : i < 1024 -> RetryStrategy.backoff self i = Ret (delay i).
Proof.
  intros Hi. unfold RetryStrategy.backoff.
  destruct (1024 <=? i) eqn:Hle; [apply Z.leb_le in Hle; lia | reflexivity].
Qed.

Lemma backoff_from i :
  1024 <= i -> RetryStrategy.backoff self i = Exc "int too large to convert to float".
Proof.
  intros Hi. unfold RetryStrategy.backoff. apply Z.leb_le in Hi. now rewrite Hi.
Qed.

Lemma attempt_success i s a :
  answer (requests s) = Ret a ->
  RetryStrategy.attempt_once self op i s = (Ret (Some a), bump s, [EGet u]).
Proof.
  intros Ha. unfold RetryStrategy.attempt_once, try_except, bind, op, scripted.
  now rewrite Ha.
Qed.

Lemma attempt_last_failure i s e :
  answer (requests s) = Exc e -> i = RetryStrategy.max_retries self - 1 ->
  RetryStrategy.attempt_once self op i s = (Exc e, bump s, [EGet u]).
Proof.
  intros Ha Hi. unfold RetryStrategy.attempt_once, try_except, bind, op, scripted.
  rewrite Ha. apply Z.eqb_eq in Hi. now rewrite Hi.
Qed.

Lemma attempt_retry i s e :
  answer (requests s) = Exc e -> i <> RetryStrategy.max_retries self - 1 -> i < 1024 ->
  RetryStrategy.attempt_once self op i s
  = (Ret None, slept (delay i) (bump s),
     [EGet u; EWarning (i + 1) e (delay i); ESleep (delay i)]).
Proof.
  intros Ha Hi Hlt. unfold RetryStrategy.attempt_once, try_except, bind, op, scripted, lift.
  rewrite Ha. apply Z.eqb_neq in Hi. now rewrite Hi, (backoff_below i Hlt).
Qed.

(** From attempt index 1024 on a failure that is not the last attempt's
    never gets to its sleep: computing the delay raises. *)
Lemma attempt_overflow i s e :
  answer (requests s) = Exc e -> i <> RetryStrategy.max_retries self - 1 -> 1024 <= i ->
  RetryStrategy.attempt_once self op i s
  = (Exc "int too large to convert to float", bump s, [EGet u]).
Proof.
  intros Ha Hi Hge. unfold RetryStrategy.attempt_once, try_except, bind, op, scripted, lift.
  rewrite Ha. apply Z.eqb_neq in Hi. now rewrite Hi, (backoff_from i Hge).
Qed.

(** The loop from attempt [i0] on, when the next [k] requests fail, none
    of them is the last attempt and each delay can be computed: what the
    request after them decides. *)
Lemma loop_after_failures (k : nat) :
  forall (i0 m : nat) (s : State),
    (forall j, (j < k)%nat -> exists e, answer (requests s + j)%nat = Exc e) ->
    (forall j, (j < k)%nat -> Z.of_nat (i0 + j) <> RetryStrategy.max_retries self - 1) ->
    (i0 + k <= 1024)%nat ->
    exists s1 ev1,
      requests s1 = (requests s + k)%nat
      /\ gets ev1 = repeat u k
      /\ sleeps ev1 = map delay (map Z.of_nat (seq i0 k))
      /\ forall r s2 ev2,
           RetryStrategy.execute_loop self op (map Z.of_nat (seq (i0 + k) m)) s1 = (r, s2, ev2) ->
           RetryStrategy.execute_loop self op (map Z.of_nat (seq i0 (k + m))) s = (r, s2, ev1 ++ ev2).
Proof.
  induction k as [ | k IH]; intros i0 m s Hfail Hnot Hsmall.
  - exists s, []. rewrite !Nat.add_0_r. simpl. auto.
  - destruct (Hfail 0%nat) as [e He]; [lia | ]. rewrite Nat.add_0_r in He.
    assert (Hi0 : Z.of_nat i0 <> RetryStrategy.max_retries self - 1).
    { specialize (Hnot 0%nat). rewrite Nat.add_0_r in Hnot. apply Hnot. lia. }
    assert (Hlt : Z.of_nat i0 < 1024) by lia.
    pose proof (attempt_retry (Z.of_nat i0) s e He Hi0 Hlt) as Hstep.
    set (s' := slept (delay (Z.of_nat i0)) (bump s)) in *.
    destruct (IH (S i0) m s') as (s1 & ev1 & Hreq & Hgets & Hsleeps & Hrun).
    + intros j Hj. destruct (Hfail (S j)) as [e' He']; [lia | ].
      exists e'. simpl. now rewrite <- Nat.add_succ_r.
    + intros j Hj. specialize (Hnot (S j)). rewrite Nat.add_succ_r in Hnot.
      apply Hnot. lia.
    + lia.
    + exists s1,
        ([EGet u; EWarning (Z.of_nat i0 + 1) e (delay (Z.of_nat i0));
          ESleep (delay (Z.of_nat i0))] ++ ev1).
      repeat split.
      * rewrite Hreq. simpl. lia.
      * simpl. now rewrite Hgets.
      * simpl. now rewrite Hsleeps.
      * intros r s2 ev2 Hrest. simpl.
        rewrite <- Nat.add_succ_comm in Hrest.
        erewrite bind_ret; [ | exact Hstep | apply (Hrun _ _ _ Hrest)].
        reflexivity.
Qed.

Lemma range_split (n : Z) (k : nat) :
  Z.of_nat k < n ->
  range n = map Z.of_nat (seq 0 (k + S (Z.to_nat n - S k))).
Proof. intros Hk. unfold range. do 2 f_equal. lia. Qed.

Lemma repeat_snoc {X} (x : X) n : repeat x n ++ [x] = repeat x (S n).
Proof. induction n; simpl in *; congruence. Qed.

Lemma gets_app a b : gets (a ++ b) = gets a ++ gets b.
Proof. induction a as [ | [] a IH]; simpl; congruence. Qed.

Lemma sleeps_app a b : sleeps (a ++ b) = sleeps a ++ sleeps b.
Proof. induction a as [ | [] a IH]; simpl; congruence. Qed.

Lemma parses_app a b : parses (a ++ b) = parses a ++ parses b.
Proof. induction a as [ | [] a IH]; simpl; congruence. Qed.

Lemma locks_app a b : lock_acquisitions (a ++ b) = (lock_acquisitions a + lock_acquisitions b)%nat.
Proof. induction a as [ | [] a IH]; simpl; congruence. Qed.

(** One pass of the loop sends one request, to the URL, and does nothing
    else that can be observed but log and sleep. *)
Lemma attempt_once_trace i s r s' ev :
  RetryStrategy.attempt_once self op i s = (r, s', ev) ->
  gets ev = [u] /\ parses ev = [] /\ lock_acquisitions ev = 0%nat
  /\ requests s' = S (requests s) /\ last_request s' = last_request s.
Proof.
  intros H. destruct (answer (requests s)) as [a | e] eqn:Ha.
  - rewrite (attempt_success i s a Ha) in H. injection H as _ <- <-. now repeat split.
  - destruct (Z.eq_dec i (RetryStrategy.max_retries self - 1)) as [Hi | Hi].
    + rewrite (attempt_last_failure i s e Ha Hi) in H. injection H as _ <- <-.
      now repeat split.
    + destruct (Z_lt_le_dec i 1024) as [Hlt | Hge].
      * rewrite (attempt_retry i s e Ha Hi Hlt) in H. injection H as _ <- <-.
        now repeat split.
      * rewrite (attempt_overflow i s e Ha Hi Hge) in H. injection H as _ <- <-.
        now repeat split.
Qed.

Lemma delays_seq (k : nat) : delays self (Z.of_nat k) = map delay (map Z.of_nat (seq 0 k)).
Proof. unfold delays, range. now rewrite Nat2Z.id. Qed.

(** The loop, once the first [k] invocations have failed. *)
Lemma execute_after_failures (s : State) (k : nat) :
  Z.of_nat k < RetryStrategy.max_retries self ->
  (k <= 1024)%nat ->
  (forall j, (j < k)%nat -> exists e, answer (requests s + j)%nat = Exc e) ->
  exists s1 ev1,
    requests s1 = (requests s + k)%nat
    /\ gets ev1 = repeat u k
    /\ sleeps ev1 = delays self (Z.of_nat k)
    /\ forall r s2 ev2,
         RetryStrategy.attempt_once self op (Z.of_nat k) s1 = (r, s2, ev2) ->
         r <> Ret None ->
         RetryStrategy.execute self op s
         = (match r with Ret (Some a) => Ret (Some a) | Ret None => Ret None | Exc e => Exc e end,
            s2, ev1 ++ ev2).
Proof.
  intros Hk Hsmall Hfail.
  set (m := S (Z.to_nat (RetryStrategy.max_retries self) - S k)).
  destruct (loop_after_failures k 0 m s Hfail) as (s1 & ev1 & Hreq & Hgets & Hsleeps & Hrun).
  { intros j Hj. simpl. lia. }
  { simpl. lia. }
  exists s1, ev1. rewrite delays_seq.
  split; [exact Hreq | split; [exact Hgets | split; [exact Hsleeps | ]]].
  intros r s2 ev2 Hstep Hnone.
  unfold RetryStrategy.execute. rewrite (range_split _ k Hk). fold m.
  apply Hrun. unfold m. cbn [seq map RetryStrategy.execute_loop Nat.add].
  destruct r as [[a | ] | e].
  - rewrite (bind_step _ _ _ _ _ _ Hstep). unfold ret. now rewrite app_nil_r.
  - congruence.
  - now apply bind_exc.
Qed.

(** C4, amended.  Let the operation's first [k] invocations fail, with [k]
    below [max_retries] and at most 1024, and let the delays
    [base_delay * 2^i], [i < k], be finite floats.  If invocation [k+1]
    succeeds, [execute] returns its result, no failure surfaces, the
    operation was invoked [k+1] times and the sleeps were
    [base_delay * 2^i] for [i = 0 .. k-1].  If it fails too and was the last
    attempt ([k = max_retries - 1], so [max_retries] is between 1 and 1025),
    its failure is what [execute] raises, after exactly [max_retries]
    invocations and the sleeps [base_delay * 2^i] for
    [i = 0 .. max_retries - 2]. *)
Theorem execute_retries (s : State) (k : nat) :
  Z.of_nat k < RetryStrategy.max_retries self ->
  (k <= 1024)%nat ->
  (forall j, (j < k)%nat -> exists e, answer (requests s + j)%nat = Exc e) ->
  Forall finite_float (delays self (Z.of_nat k)) ->
  (forall a, answer (requests s + k)%nat = Ret a ->
     exists s' ev,
       RetryStrategy.execute self (scripted answer u) s = (Ret (Some a), s', ev)
       /\ gets ev = repeat u (S k)
       /\ sleeps ev = delays self (Z.of_nat k))
  /\
  (forall e, answer (requests s + k)%nat = Exc e ->
     Z.of_nat k = RetryStrategy.max_retries self - 1 ->
     exists s' ev,
       RetryStrategy.execute self (scripted answer u) s = (Exc e, s', ev)
       /\ gets ev = repeat u (Z.to_nat (RetryStrategy.max_retries self))
       /\ sleeps ev = delays self (RetryStrategy.max_retries self - 1)).
Proof.
  intros Hk Hsmall Hfail _.
  destruct (execute_after_failures s k Hk Hsmall Hfail)
    as (s1 & ev1 & Hreq & Hgets & Hsleeps & Hrun).
  split.
  - intros a Ha. rewrite <- Hreq in Ha.
    exists (bump s1), (ev1 ++ [EGet u]). split; [ | split].
    + exact (Hrun _ _ _ (attempt_success (Z.of_nat k) s1 a Ha) ltac:(discriminate)).
    + rewrite gets_app, Hgets. simpl. apply repeat_snoc.
    + rewrite sleeps_app, Hsleeps. simpl. apply app_nil_r.
  - intros e He Hlast. rewrite <- Hreq in He.
    exists (bump s1), (ev1 ++ [EGet u]). split; [ | split].
    + exact (Hrun _ _ _ (attempt_last_failure (Z.of_nat k) s1 e He Hlast) ltac:(discriminate)).
    + rewrite gets_app, Hgets. simpl. rewrite repeat_snoc. f_equal. lia.
    + rewrite sleeps_app, Hsleeps. simpl. rewrite app_nil_r. f_equal. lia.
Qed.

(** Beyond that range the loop does not get to its last attempt: when 1025
    invocations have failed and more attempts are allowed, [execute] raises
    the [OverflowError] of the delay it cannot compute, in place of the
    operation's failure. *)
Lemma execute_overflow (s : State) :
  1026 <= RetryStrategy.max_retries self ->
  (forall j, (j < 1025)%nat -> exists e, answer (requests s + j)%nat = Exc e) ->
  exists s' ev,
    RetryStrategy.execute self (scripted answer u) s
    = (Exc "int too large to convert to float", s', ev)
    /\ gets ev = repeat u 1025
    /\ sleeps ev = delays self 1024.
Proof.
  intros Hmany Hfail.
  destruct (execute_after_failures s 1024) as (s1 & ev1 & Hreq & Hgets & Hsleeps & Hrun);
    [lia | lia | intros j Hj; apply Hfail; lia | ].
  destruct (Hfail 1024%nat) as [e He]; [lia | ]. rewrite <- Hreq in He.
  exists (bump s1), (ev1 ++ [EGet u]). split; [ | split].
  - refine (Hrun _ _ _ (attempt_overflow (Z.of_nat 1024) s1 e He _ _) ltac:(discriminate));
      lia.
  - rewrite gets_app, Hgets. simpl gets. apply repeat_snoc.
  - rewrite sleeps_app, Hsleeps. simpl sleeps. now rewrite app_nil_r.
Qed.

(** X4.  With no attempt allowed the loop body never runs: the operation is not
    invoked and [execute] returns [None]. *)
Lemma execute_without_attempts (s : State) :
  RetryStrategy.max_retries self <= 0 ->
  RetryStrategy.execute self (scripted answer u) s = (Ret None, s, []).
Proof.
  intros Hn. unfold RetryStrategy.execute, range.
  replace (Z.to_nat (RetryStrategy.max_retries self)) with 0%nat by lia.
  reflexivity.
Qed.


End Retry.

Lemma gets_acquire_critical F self s : gets (acquire_critical F self s) = [].
Proof.
  unfold acquire_critical, acquire_sleep. destruct (Qeq_bool _ _); [reflexivity | ].
  destruct (Qltb 0 _); reflexivity.
Qed.

Lemma parses_acquire_critical F self s : parses (acquire_critical F self s) = [].
Proof.
  unfold acquire_critical, acquire_sleep. destruct (Qeq_bool _ _); [reflexivity | ].
  destruct (Qltb 0 _); reflexivity.
Qed.

Lemma locks_acquire_critical F self s : lock_acquisitions (acquire_critical F self s) = 0%nat.
Proof.
  unfold acquire_critical, acquire_sleep. destruct (Qeq_bool _ _); [reflexivity | ].
  destruct (Qltb 0 _); reflexivity.
Qed.

(** The trace of [acquire]: the lock once, no request, no parse. *)
Lemma acquire_trace F self s :
  gets (snd (RateLimiter.acquire F self s)) = []
  /\ parses (snd (RateLimiter.acquire F self s)) = []
  /\ lock_acquisitions (snd (RateLimiter.acquire F self s)) = 1%nat
  /\ requests (snd (fst (RateLimiter.acquire F self s))) = requests s.
Proof.
  rewrite acquire_events. cbn [gets parses lock_acquisitions].
  rewrite gets_app, parses_app, locks_app.
  rewrite gets_acquire_critical, parses_acquire_critical, locks_acquire_critical.
  repeat split.
  destruct (Qeq_bool (rate_of self) 0) eqn:Hrate.
  - now rewrite (acquire_zero_rate F self s Hrate).
  - now rewrite (acquire_run F self s Hrate).
Qed.

(** Whatever the transport answers, the retry loop sends its requests to
    the one URL, at most one per attempt, never touches the lock or the
    timestamp and never calls the feed parser. *)
Lemma execute_loop_requests {A} self (answer : nat -> res A) u attempts :
  forall s r s' ev,
    RetryStrategy.execute_loop self (scripted answer u) attempts s = (r, s', ev) ->
    parses ev = []
    /\ lock_acquisitions ev = 0%nat
    /\ last_request s' = last_request s
    /\ exists k,
         (k <= List.length attempts)%nat
         /\ gets ev = repeat u k
         /\ requests s' = (requests s + k)%nat.
Proof.
  induction attempts as [ | i attempts IH]; intros s r s' ev H.
  - injection H as <- <- <-. repeat split. exists 0%nat. repeat split; auto.
  - cbn [RetryStrategy.execute_loop] in H. apply bind_inv in H.
    destruct H as [(o & s1 & ev1 & ev2 & Ha & H & ->) | (e & Ha & _)].
    + destruct (attempt_once_trace _ _ _ _ _ _ _ _ Ha) as (Hg & Hp & Hl & Hr & Hlast).
      rewrite parses_app, locks_app, gets_app, Hg, Hp, Hl.
      destruct o as [a | ].
      * injection H as _ <- <-. repeat split; auto.
        exists 1%nat. simpl. repeat split; [lia | lia].
      * destruct (IH _ _ _ _ H) as (Hp2 & Hl2 & Hlast2 & k & Hk & Hg2 & Hr2).
        rewrite Hp2, Hl2, Hg2. repeat split; [congruence | ].
        exists (S k). simpl. repeat split; lia.
    + destruct (attempt_once_trace _ _ _ _ _ _ _ _ Ha) as (Hg & Hp & Hl & Hr & Hlast).
      repeat split; auto. exists 1%nat. simpl. repeat split; [lia | assumption | lia].
Qed.

(** ** Strings *)

Lemma startswith_spec (p s : string) :
  startswith p s = true <-> exists post, s = (p ++ post)%string.
Proof.
  revert s. induction p as [ | a p IH]; intros s; simpl.
  - split; [intros _; now exists s | reflexivity].
  - destruct s as [ | b s].
    + split; [discriminate | intros [post H]; discriminate H].
    + rewrite andb_true_iff, Ascii.eqb_eq, IH. split.
      * intros [-> [post ->]]. now exists post.
      * intros [post [= -> ->]]. split; [reflexivity | now exists post].
Qed.

Lemma contains_spec (n s : string) :
  contains n s = true <-> exists pre post, s = (pre ++ n ++ post)%string.
Proof.
  induction s as [ | b s IH].
  - simpl. rewrite orb_false_r, startswith_spec. split.
    + intros [post H]. now exists EmptyString, post.
    + intros [[ | c pre] [post H]]; [now exists post | discriminate H].
  - cbn [contains]. rewrite orb_true_iff, startswith_spec, IH. split.
    + intros [[post H] | (pre & post & H)].
      * now exists EmptyString, post.
      * exists (String b pre), post. simpl. now rewrite H.
    + intros ([ | c pre] & post & H).
      * left. now exists post.
      * right. simpl in H. injection H as _ H. now exists pre, post.
Qed.

Lemma lower_app (a b : string) : lower (a ++ b) = (lower a ++ lower b)%string.
Proof. induction a as [ | c a IH]; simpl; [reflexivity | now rewrite IH]. Qed.

Lemma lower_split (a' b' s : string) :
  lower s = (a' ++ b')%string ->
  exists a b, s = (a ++ b)%string /\ lower a = a' /\ lower b = b'.
Proof.
  revert s. induction a' as [ | c a' IH]; intros s H.
  - now exists EmptyString, s.
  - destruct s as [ | d s]; [discriminate H | ].
    simpl in H. injection H as Hc H.
    destruct (IH _ H) as (a & b & -> & <- & <-).
    exists (String d a), b. simpl. now rewrite Hc.
Qed.

(** [lower_ascii] sends a character to [l], which is no capital, exactly
    when the character is [l] or the capital of [l]. *)
Lemma lower_ascii_either_case (l c : ascii) :
  capital l = false -> (lower_ascii c = l <-> either_case l c).
Proof.
  intros Hl. split.
  - intros <-. clear Hl. unfold either_case.
    destruct c as [[] [] [] [] [] [] [] []];
      first [left; reflexivity | right; cbv; repeat (first [left; reflexivity | right])].
  - intros [-> | Hin].
    + destruct l as [[] [] [] [] [] [] [] []]; cbv in Hl; try discriminate Hl; reflexivity.
    + cbv in Hin.
      repeat (destruct Hin as [Hin | Hin]; [injection Hin as <- <-; reflexivity | ]).
      contradiction.
Qed.

Lemma lower_spells (word : string) :
  no_capital word = true -> forall w, lower w = word <-> spells word w.
Proof.
  unfold no_capital. induction word as [ | l word IH]; intros Hcap w.
  - destruct w; simpl; split; try tauto; discriminate.
  - cbn [list_ascii_of_string forallb] in Hcap. apply andb_true_iff in Hcap.
    destruct Hcap as [Hl Hword]. apply negb_true_iff in Hl.
    destruct w as [ | c w]; cbn [lower spells]; [split; [discriminate | tauto] | ].
    rewrite <- (IH Hword w), <- (lower_ascii_either_case l c Hl). split.
    + intros [= Hc Hw]. now split.
    + intros [Hc Hw]. now rewrite Hc, Hw.
Qed.

(** [word in content.lower()], for a word without capitals, is a search
    for the word in any mix of cases. *)
Lemma contains_lower_iff (word content : string) :
  no_capital word = true ->
  contains word (lower content) = true <-> mentions word content.
Proof.
  intros Hcap. rewrite contains_spec. split.
  - intros (pre' & post' & H).
    destruct (lower_split _ _ _ H) as (pre & rest & -> & _ & Hrest).
    destruct (lower_split _ _ _ Hrest) as (w & post & -> & Hw & _).
    exists pre, w, post. split; [reflexivity | now apply lower_spells].
  - intros (pre & w & post & -> & Hw). apply (lower_spells word Hcap) in Hw.
    exists (lower pre), (lower post). now rewrite !lower_app, Hw.
Qed.

(** ** FeedFinder._check_feed_url: the validation step *)

Lemma validate_skips E url content status s :
  status <> 200 \/ content = "" ->
  FeedFinder.validate E url content status s = (Ret None, s, []).
Proof.
  intros [Hst | ->]; unfold FeedFinder.validate.
  - apply Z.eqb_neq in Hst. now rewrite Hst.
  - now rewrite orb_true_r.
Qed.

Lemma validate_parses E url content s :
  content <> "" ->
  FeedFinder.validate E url content 200 s
  = match feedparser_parse E (requests s) content with
    | Ret parsed =>
        (Ret (if FeedFinder.well_formed parsed
              then Some {| feed_url := url; feed_type := FeedFinder.classify content;
                           feed_title := FeedFinder.title_of parsed |}
              else None), s, [EParse content])
    | Exc e => (Exc e, s, [EParse content])
    end.
Proof.
  intros Hne. unfold FeedFinder.validate.
  assert (Hguard : negb (200 =? 200) || negb (nonempty content) = false)
    by (destruct content; [congruence | reflexivity]).
  rewrite Hguard. unfold bind, FeedFinder.parse_feed.
  destruct (feedparser_parse E (requests s) content) as [parsed | e]; [ | reflexivity].
  destruct (FeedFinder.well_formed parsed); reflexivity.
Qed.

Lemma well_formed_iff parsed :
  FeedFinder.well_formed parsed = true
  <-> bozo parsed = Some 0 /\ exists d, feed parsed = Some d /\ d <> [].
Proof.
  unfold FeedFinder.well_formed. rewrite andb_true_iff, Z.eqb_eq. split.
  - intros [Hb Hf]. split.
    + destruct (bozo parsed) as [b | ]; [now subst | discriminate].
    + destruct (feed parsed) as [[ | kv d] | ]; try discriminate.
      exists (kv :: d). split; [reflexivity | discriminate].
  - intros [-> (d & -> & Hd)]. split; [reflexivity | ].
    destruct d; [congruence | reflexivity].
Qed.

(** C5, amended.  [validate] returns [None] when the status is not 200 or
    the body is empty, whatever the body holds, without calling the parser.
    Otherwise it hands the body to the parser, once.  When the parser
    returns a document with [bozo] equal to 0 and a non-empty [feed]
    dictionary, the result is a feed for the URL whose type is [atom]
    exactly when the body contains [atom] in any mix of cases (else [rss])
    and whose title is the dictionary's [title] entry, or the empty string
    without one.  When the parser returns any other [bozo], or a missing or
    empty [feed], the result is [None].  When the parser raises, so does
    [validate]: that failure is not turned into [None]. *)
Theorem validate_spec (E : Env) (url content : string) (status : Z) (s : State) :
  (status <> 200 \/ content = "" ->
     FeedFinder.validate E url content status s = (Ret None, s, []))
  /\
  (status = 200 -> content <> "" ->
     (forall parsed, feedparser_parse E (requests s) content = Ret parsed ->
        (forall d, bozo parsed = Some 0 -> feed parsed = Some d -> d <> [] ->
           exists ty,
             FeedFinder.validate E url content status s
             = (Ret (Some {| feed_url := url; feed_type := ty;
                             feed_title := match dict_get d "title" with
                                           | Some title => title
                                           | None => ""
                                           end |}), s, [EParse content])
             /\ (ty = atom <-> mentions "atom" content)
             /\ (ty = rss <-> ~ mentions "atom" content))
        /\
        (bozo parsed <> Some 0 \/ feed parsed = None \/ feed parsed = Some [] ->
           FeedFinder.validate E url content status s = (Ret None, s, [EParse content])))
     /\
     (forall e, feedparser_parse E (requests s) content = Exc e ->
        FeedFinder.validate E url content status s = (Exc e, s, [EParse content]))).
Proof.
  split; [apply validate_skips | ].
  intros -> Hne. rewrite (validate_parses E url content s Hne). split.
  - intros parsed ->. split.
    + intros d Hb Hd Hnil. exists (FeedFinder.classify content).
      assert (Hwf : FeedFinder.well_formed parsed = true)
        by (apply well_formed_iff; eauto).
      rewrite Hwf. unfold FeedFinder.title_of, dict_get_default. rewrite Hd.
      split; [reflexivity | ].
      unfold FeedFinder.classify.
      rewrite <- (contains_lower_iff "atom" content eq_refl).
      destruct (contains "atom" (lower content)); split; split; congruence.
    + intros Hbad.
      destruct (FeedFinder.well_formed parsed) eqn:Hwf; [ | reflexivity].
      apply well_formed_iff in Hwf. destruct Hwf as [Hb (d & Hd & Hnil)].
      destruct Hbad as [Hbad | [Hbad | Hbad]]; congruence.
  - now intros e ->.
Qed.

(** ** FeedFinder._fetch_url *)

(** C3.  Once the rate limiter has let the call through, a failure of the
    retry-wrapped request does not leave [_fetch_url]: the call returns the
    pair of the empty body and status 0, and the last thing it does is log
    the error for this URL. *)
Theorem fetch_url_absorbs_failure (E : Env) (self : FeedFinder.t) (session : Session)
    (u : string) (s s1 s2 : State) (ev1 ev2 : list Event) (e : exn) :
  RateLimiter.acquire (arith E) (FeedFinder.rate_limiter self) s = (Ret tt, s1, ev1) ->
  RetryStrategy.execute (FeedFinder.retry_strategy self) (FeedFinder._fetch E session u) s1
    = (Exc e, s2, ev2) ->
  FeedFinder._fetch_url E self session u s
    = (Ret (Some ("", 0)), s2, ev1 ++ ev2 ++ [EError u e]).
Proof.
  intros Hacq Hexec. unfold FeedFinder._fetch_url.
  eapply bind_ret; [exact Hacq | ].
  eapply try_except_exc; [exact Hexec | reflexivity].
Qed.

(** Unless the configured rate is zero (then [1/self.rate] raises inside
    [acquire]), [_fetch_url] returns whatever the transport does. *)
Lemma fetch_url_returns (E : Env) (self : FeedFinder.t) (session : Session)
    (u : string) (s : State) :
  Qeq_bool (rate_of (FeedFinder.rate_limiter self)) 0 = false ->
  exists v s' ev, FeedFinder._fetch_url E self session u s = (Ret v, s', ev).
Proof.
  intros Hrate. destruct (acquire_returns (arith E) _ s Hrate) as [s1 Hacq].
  unfold FeedFinder._fetch_url.
  destruct (RetryStrategy.execute (FeedFinder.retry_strategy self)
              (FeedFinder._fetch E session u) s1) as [[[v | e] s2] ev2] eqn:Hexec.
  - do 3 eexists. eapply bind_ret; [exact Hacq | ].
    eapply try_except_ret. exact Hexec.
  - do 3 eexists. eapply bind_ret; [exact Hacq | ].
    eapply try_except_exc; [exact Hexec | reflexivity].
Qed.

Lemma range_length n : List.length (range n) = Z.to_nat n.
Proof. unfold range. now rewrite length_map, length_seq. Qed.

(** The lock, the requests and the parses of one fetch. *)
Lemma fetch_url_trace (E : Env) (self : FeedFinder.t) (session : Session)
    (u : string) (s s' : State) (r : res (option (string * Z))) (ev : list Event) :
  FeedFinder._fetch_url E self session u s = (r, s', ev) ->
  lock_acquisitions ev = 1%nat
  /\ parses ev = []
  /\ exists k,
       gets ev = repeat u k
       /\ (k <= Z.to_nat (RetryStrategy.max_retries (FeedFinder.retry_strategy self)))%nat
       /\ requests s' = (requests s + k)%nat.
Proof.
  unfold FeedFinder._fetch_url. intros H.
  destruct (acquire_trace (arith E) (FeedFinder.rate_limiter self) s) as (Hag & Hap & Hal & Hreq).
  apply bind_inv in H.
  destruct H as [([] & s1 & ev1 & ev2 & Hacq & H & ->) | (e & Hacq & _)];
    rewrite Hacq in Hag, Hap, Hal, Hreq; cbn [fst snd] in Hag, Hap, Hal, Hreq.
  - unfold try_except in H.
    destruct (RetryStrategy.execute _ _ s1) as [[[v | e] s2] ev3] eqn:Hexec;
      apply execute_loop_requests in Hexec;
      destruct Hexec as (Hp & Hl & _ & k & Hk & Hg & Hr); rewrite range_length in Hk.
    + injection H as _ <- <-. rewrite locks_app, gets_app, parses_app, Hag, Hap, Hal, Hg, Hl, Hp.
      split; [reflexivity | split; [reflexivity | ]].
      exists k. repeat split; auto. congruence.
    + cbn in H. injection H as _ <- <-.
      rewrite locks_app, gets_app, parses_app, Hag, Hap, Hal.
      rewrite locks_app, gets_app, parses_app, Hg, Hl, Hp. simpl.
      split; [reflexivity | split; [reflexivity | ]].
      exists k. rewrite app_nil_r. repeat split; auto. congruence.
  - split; [exact Hal | split; [exact Hap | ]].
    exists 0%nat. simpl. repeat split; auto; lia.
Qed.


(** ** FeedFinder._clean_url *)



Lemma rstrip_spec (c : ascii) (s : string) :
  endswith_char c (rstrip c s) = false
  /\ exists k, s = (rstrip c s ++ repeat_char c k)%string.
Proof.
  induction s as [ | a s [IHend [k IHk]]]; [split; [reflexivity | now exists 0%nat] | ].
  cbn [rstrip]. destruct (rstrip c s) as [ | b r] eqn:Hr.
  - destruct (Ascii.eqb a c) eqn:Hac.
    + split; [reflexivity | ]. apply Ascii.eqb_eq in Hac. subst a.
      exists (S k). simpl in *. now rewrite <- IHk.
    + split; [simpl; exact Hac | ]. exists k. simpl in *. now rewrite <- IHk.
  - split; [exact IHend | ]. exists k. simpl in *. now rewrite <- IHk.
Qed.

(** X2.  Normalization: the cleaned URL is the URL with its scheme ([https://]
    put in front when it has neither scheme) less its trailing slashes, and
    nothing but trailing slashes was taken off. *)
Theorem clean_url_normalizes (url : string) :
  FeedFinder._clean_url url = rstrip "/" (with_scheme url)
  /\ (startswith "http://" url = false -> startswith "https://" url = false ->
      with_scheme url = ("https://" ++ url)%string)
  /\ endswith_char "/" (FeedFinder._clean_url url) = false
  /\ (exists k, with_scheme url = (FeedFinder._clean_url url ++ repeat_char "/" k)%string)
  /\ FeedFinder._clean_url "example.com/" = "https://example.com".
Proof.
  split; [reflexivity | ]. split.
  - intros H1 H2. unfold with_scheme. now rewrite H1, H2.
  - change (FeedFinder._clean_url url) with (rstrip "/" (with_scheme url)).
    destruct (rstrip_spec "/" (with_scheme url)) as [Hend Hk].
    split; [exact Hend | split; [exact Hk | reflexivity]].
Qed.

(** ** FeedFinder._find_feeds_in_html *)

Lemma bind_ret_l {A B} (a : A) (f : A -> M B) s : bind (ret a) f s = f a s.
Proof. unfold bind, ret. now destruct (f a s) as [[r s2] ev2]. Qed.

Lemma bind_assoc {A B C} (m : M A) (f : A -> M B) (g : B -> M C) s :
  bind (bind m f) g s = bind m (fun a => bind (f a) g) s.
Proof.
  unfold bind. destruct (m s) as [[[a | e] s1] ev1]; [ | reflexivity].
  destruct (f a s1) as [[[b | e] s2] ev2]; [ | reflexivity].
  destruct (g b s2) as [[r s3] ev3]. now rewrite app_assoc.
Qed.

Lemma bind_ext {A B} (m : M A) (f g : A -> M B) s :
  (forall a s1, f a s1 = g a s1) -> bind m f s = bind m g s.
Proof.
  intros Hfg. unfold bind. destruct (m s) as [[[a | e] s1] ev1]; [ | reflexivity].
  now rewrite Hfg.
Qed.

Lemma for_in_app {A S} (l1 l2 : list A) (body : S -> A -> M S) acc s :
  for_in (l1 ++ l2) body acc s = bind (for_in l1 body acc) (for_in l2 body) s.
Proof.
  revert acc s. induction l1 as [ | x l1 IH]; intros acc s; simpl.
  - now rewrite bind_ret_l.
  - rewrite bind_assoc. apply bind_ext. intros a s1. apply IH.
Qed.

Lemma bind_lift_ret {A B} (a : A) (f : A -> M B) s : bind (lift (Ret a)) f s = f a s.
Proof. apply (bind_ret_l a f s). Qed.

Lemma bind_lift_exc {A B} e (f : A -> M B) s : bind (lift (Exc e)) f s = (Exc e, s, []).
Proof. reflexivity. Qed.

Lemma for_in_one {X S} (step : S -> X -> M S) acc x s :
  for_in [x] step acc s = step acc x s.
Proof.
  simpl. unfold bind, ret. destruct (step acc x s) as [[[a | e] s1] ev1];
    [now rewrite app_nil_r | reflexivity].
Qed.

(** A loop whose body, element by element, is a loop over the element's
    candidates is the loop over all the candidates, when every element's
    candidates could be resolved. *)
Lemma for_in_collect {A X S} (cands : A -> res (list X)) (items : list A)
    (body : S -> A -> M S) (step : S -> X -> M S) :
  (forall acc x c s, cands x = Ret c -> body acc x s = for_in c step acc s) ->
  forall cs, collect cands items = Ret cs ->
  forall acc s, for_in items body acc s = for_in cs step acc s.
Proof.
  intros Hbody. induction items as [ | x items IH]; intros cs Hcs acc s.
  - injection Hcs as <-. reflexivity.
  - cbn [collect] in Hcs. destruct (cands x) as [c | e] eqn:Hx; [ | discriminate Hcs].
    destruct (collect cands items) as [cs' | e]; [ | discriminate Hcs].
    injection Hcs as <-. cbn [for_in]. rewrite for_in_app. unfold bind.
    rewrite (Hbody _ _ _ _ Hx).
    destruct (for_in c step acc s) as [[[a | e] s1] ev1]; [ | reflexivity].
    now rewrite (IH cs' eq_refl).
Qed.


Lemma link_step_candidates (E : Env) self session url (acc : list Feed) link c s :
  link_candidate E url link = Ret c ->
  FeedFinder.link_step E self session url acc link s
  = for_in c (check_step E self session) acc s.
Proof.
  unfold link_candidate, FeedFinder.link_step, href_of.
  destruct (FeedFinder.has_feed_type link); [ | now intros [= <-]].
  destruct (urljoin E url _) as [feed_url | e]; [ | discriminate].
  intros [= <-]. rewrite bind_lift_ret.
  destruct (nonempty feed_url); [now rewrite for_in_one | reflexivity].
Qed.

Lemma anchor_step_candidates (E : Env) self session url (acc : list Feed) link c s :
  anchor_candidate E url link = Ret c ->
  FeedFinder.anchor_step E self session url acc link s
  = for_in c (check_step E self session) acc s.
Proof.
  unfold anchor_candidate, FeedFinder.anchor_step, href_of.
  destruct (FeedFinder.mentions_feed _); [ | now intros [= <-]].
  destruct (urljoin E url _) as [feed_url | e]; [ | discriminate].
  intros [= <-]. rewrite bind_lift_ret. now rewrite for_in_one.
Qed.

(** On a page the HTML parser accepts and whose references can all be
    resolved, [_find_feeds_in_html] validates the candidates in scan
    order. *)
Lemma find_feeds_in_html_scan (E : Env) self session url content soup candidates s :
  BeautifulSoup E content = Ret soup ->
  scan E url soup = Ret candidates ->
  FeedFinder._find_feeds_in_html E self session url content s
  = check_all E self session candidates s.
Proof.
  intros Hsoup Hscan. unfold FeedFinder._find_feeds_in_html, check_all.
  rewrite Hsoup, bind_lift_ret. unfold scan in Hscan.
  destruct (collect (link_candidate E url) _) as [ls | e] eqn:Hl; [ | discriminate Hscan].
  destruct (collect (anchor_candidate E url) _) as [la | e] eqn:Ha; [ | discriminate Hscan].
  injection Hscan as <-. rewrite for_in_app. unfold bind.
  rewrite (for_in_collect _ _ _ (check_step E self session)
             (fun acc x c s => link_step_candidates E self session url acc x c s) ls Hl).
  destruct (for_in ls _ [] s) as [[[feeds | e] s1] ev1]; [ | reflexivity].
  now rewrite (for_in_collect _ _ _ (check_step E self session)
                 (fun acc x c s => anchor_step_candidates E self session url acc x c s) la Ha).
Qed.

(** *** A fetch whose first request is answered *)







(** ** FeedFinder._discover_feeds *)

Section Discovery.

Variable E : Env.
Variable self : FeedFinder.t.

Lemma probe_run session url path u s o s1 ev1 :
  urljoin E url path = Ret u ->
  FeedFinder._check_feed_url E self session u s = (Ret o, s1, ev1) ->
  FeedFinder.probe E self session url tt path s = (Ret tt, record_outcome o s1, ev1).
Proof.
  intros Hj H. unfold FeedFinder.probe. rewrite Hj, bind_lift_ret. unfold bind. rewrite H.
  destruct o as [f | ]; simpl; now rewrite app_nil_r.
Qed.

Lemma probe_exc session url path u s e s1 ev1 :
  urljoin E url path = Ret u ->
  FeedFinder._check_feed_url E self session u s = (Exc e, s1, ev1) ->
  FeedFinder.probe E self session url tt path s = (Exc e, s1, ev1).
Proof.
  intros Hj H. unfold FeedFinder.probe. rewrite Hj, bind_lift_ret. unfold bind.
  now rewrite H.
Qed.

(** A path that cannot be joined to the URL ends the loop before anything
    is requested for it. *)
Lemma probe_join_exc session url path s e :
  urljoin E url path = Exc e ->
  FeedFinder.probe E self session url tt path s = (Exc e, s, []).
Proof. intros Hj. unfold FeedFinder.probe. now rewrite Hj. Qed.

(** A loop of probes that returns has probed every path. *)
Lemma for_in_probes session url paths :
  forall s s' ev,
    for_in paths (FeedFinder.probe E self session url) tt s = (Ret tt, s', ev) ->
    exists outcomes, probes E self session url paths s outcomes s' ev.
Proof.
  induction paths as [ | path paths IH]; intros s s' ev H.
  - injection H as <- <-. exists []. constructor.
  - cbn [for_in] in H.
    destruct (urljoin E url path) as [u | e] eqn:Hj.
    2:{ rewrite (bind_exc _ _ _ _ _ _ (probe_join_exc session _ _ s _ Hj)) in H.
        discriminate H. }
    destruct (FeedFinder._check_feed_url E self session u s)
      as [[[o | e] s1] ev1] eqn:Hc.
    + rewrite (bind_step _ _ _ _ _ _ (probe_run _ _ _ _ _ _ _ _ Hj Hc)) in H.
      destruct (for_in paths _ tt (record_outcome o s1)) as [[r2 s2] ev2] eqn:Hrest.
      injection H as -> <- <-. destruct (IH _ _ _ Hrest) as [os Hos].
      exists (o :: os). econstructor; eassumption.
    + rewrite (bind_exc _ _ _ _ _ _ (probe_exc _ _ _ _ _ _ _ _ Hj Hc)) in H. discriminate H.
Qed.

(** A loop of probes that raises has probed a prefix of the paths, and the
    next path is what raised: either it could not be joined to the URL, or
    its check raised.  Either way the list is as the prefix left it. *)
Lemma for_in_probes_exc session url paths :
  forall s e s' ev,
    for_in paths (FeedFinder.probe E self session url) tt s = (Exc e, s', ev) ->
    exists done path rest outcomes s1 ev1 ev2,
      paths = done ++ path :: rest
      /\ probes E self session url done s outcomes s1 ev1
      /\ FeedFinder.probe E self session url tt path s1 = (Exc e, s', ev2)
      /\ result_feeds s' = result_feeds s1
      /\ ev = ev1 ++ ev2.
Proof.
  induction paths as [ | path paths IH]; intros s e s' ev H.
  - discriminate H.
  - cbn [for_in] in H.
    destruct (urljoin E url path) as [u | e1] eqn:Hj.
    2:{ pose proof (probe_join_exc session _ _ s _ Hj) as Hp.
        rewrite (bind_exc _ _ _ _ _ _ Hp) in H. injection H as <- <- <-.
        exists [], path, paths, [], s, [], [].
        repeat split; [constructor | assumption]. }
    destruct (FeedFinder._check_feed_url E self session u s)
      as [[[o | e1] s1] ev1] eqn:Hc.
    + rewrite (bind_step _ _ _ _ _ _ (probe_run _ _ _ _ _ _ _ _ Hj Hc)) in H.
      destruct (for_in paths _ tt (record_outcome o s1)) as [[r2 s2] ev2] eqn:Hrest.
      injection H as -> <- <-.
      destruct (IH _ _ _ _ Hrest)
        as (done & p & rest & os & sm & evm & evl & -> & Hp & Hlast & Hkeep & ->).
      exists (path :: done), p, rest, (o :: os), sm, (ev1 ++ evm), evl.
      repeat split;
        [econstructor; eassumption | assumption | assumption | now rewrite app_assoc].
    + pose proof (probe_exc _ _ _ _ _ _ _ _ Hj Hc) as Hp.
      rewrite (bind_exc _ _ _ _ _ _ Hp) in H. injection H as <- <- <-.
      exists [], path, paths, [], s, [], ev1.
      repeat split; [constructor | assumption | ].
      exact (keeps_check_feed_url _ _ _ _ _ _ _ _ Hc).
Qed.

Lemma record_outcome_feeds o s :
  result_feeds (record_outcome o s) = result_feeds s ++ hits [o].
Proof. destruct o; simpl; [reflexivity | now rewrite app_nil_r]. Qed.

(** The feeds a run of probes leaves are the feeds it started with followed
    by its hits, and every path has an outcome. *)
Lemma probes_feeds session url paths s outcomes s' ev :
  probes E self session url paths s outcomes s' ev ->
  result_feeds s' = result_feeds s ++ hits outcomes
  /\ List.length outcomes = List.length paths.
Proof.
  induction 1 as [ | path paths s u o s1 ev1 os s2 ev2 Hj Hc _ [IHf IHl]].
  - now rewrite app_nil_r.
  - split; [ | simpl; now rewrite IHl].
    rewrite IHf, record_outcome_feeds, (keeps_check_feed_url _ _ _ _ _ _ _ _ Hc).
    rewrite <- app_assoc. f_equal. now destruct o.
Qed.

(** A feed that [_check_feed_url] returns carries the URL that was checked. *)
Lemma check_feed_url_url session u s f s' ev :
  FeedFinder._check_feed_url E self session u s = (Ret (Some f), s', ev) ->
  feed_url f = u.
Proof.
  unfold FeedFinder._check_feed_url. intros H.
  apply bind_inv in H. destruct H as [(fetched & s1 & ev1 & ev2 & _ & H & _) | (e & _ & H)];
    [ | discriminate H].
  apply bind_inv in H. destruct H as [(pair & s2 & ev3 & ev4 & _ & H & _) | (e & _ & H)];
    [ | discriminate H].
  unfold FeedFinder.validate in H. destruct (_ || _); [discriminate H | ].
  apply bind_inv in H. destruct H as [(parsed & s3 & ev5 & ev6 & _ & H & _) | (e & _ & H)];
    [ | discriminate H].
  destruct (FeedFinder.well_formed parsed); [ | discriminate H].
  now injection H as <- _ _.
Qed.
(** The fallback on a page that was fetched with status 200 and a body,
    that the HTML parser accepts and whose references can be resolved: the
    page's candidates are validated in scan order and the feeds found
    extend the list. *)
Lemma fallback_scan session url s1 content s2 ev2 soup candidates html s4 ev4 :
  FeedFinder._fetch_url E self session url s1 = (Ret (Some (content, 200)), s2, ev2) ->
  content <> "" ->
  BeautifulSoup E content = Ret soup ->
  scan E url soup = Ret candidates ->
  check_all E self session candidates s2 = (Ret html, s4, ev4) ->
  FeedFinder.html_fallback_phase E self session url s1
  = (Ret tt, with_feeds (result_feeds s4 ++ html) s4, ev2 ++ ev4).
Proof.
  intros Hf Hne Hsoup Hscan Hcheck. unfold FeedFinder.html_fallback_phase.
  rewrite (bind_step _ _ _ _ _ _ Hf). cbn [unpack]. rewrite bind_ret_l. cbn [fst snd].
  assert (Hguard : (200 =? 200) && nonempty content = true)
    by (destruct content; [congruence | reflexivity]).
  rewrite Hguard. unfold bind at 1.
  rewrite (find_feeds_in_html_scan E self session url content soup candidates s2 Hsoup Hscan).
  rewrite Hcheck. unfold extend_feeds, bind, get_feeds, set_feeds. simpl.
  now rewrite !app_nil_r.
Qed.

(** *** How the body of [try] runs, phase by phase *)

Lemma body_session_failure url s e :
  ClientSession E (FeedFinder.timeout self) (FeedFinder.max_redirects self) = Exc e ->
  FeedFinder.discover_body E self url s = (Exc e, s, []).
Proof. intros H. unfold FeedFinder.discover_body, bind, lift. now rewrite H. Qed.

Lemma body_known_path_failure url s session e s1 ev1 :
  ClientSession E (FeedFinder.timeout self) (FeedFinder.max_redirects self) = Ret session ->
  FeedFinder.known_path_phase E self session url s = (Exc e, s1, ev1) ->
  FeedFinder.discover_body E self url s = (Exc e, s1, ev1).
Proof.
  intros Hs Hk. unfold FeedFinder.discover_body, bind, lift. now rewrite Hs, Hk.
Qed.

Lemma body_known_path_hit url s session s1 ev1 :
  ClientSession E (FeedFinder.timeout self) (FeedFinder.max_redirects self) = Ret session ->
  FeedFinder.known_path_phase E self session url s = (Ret tt, s1, ev1) ->
  result_feeds s1 <> [] ->
  FeedFinder.discover_body E self url s = (Ret tt, s1, ev1).
Proof.
  intros Hs Hk Hne. unfold FeedFinder.discover_body, bind, lift, get_feeds.
  rewrite Hs, Hk. destruct (result_feeds s1); [congruence | ].
  simpl. now rewrite app_nil_r.
Qed.

Lemma body_known_path_miss url s session s1 ev1 r2 s2 ev2 :
  ClientSession E (FeedFinder.timeout self) (FeedFinder.max_redirects self) = Ret session ->
  FeedFinder.known_path_phase E self session url s = (Ret tt, s1, ev1) ->
  result_feeds s1 = [] ->
  FeedFinder.html_fallback_phase E self session url s1 = (r2, s2, ev2) ->
  FeedFinder.discover_body E self url s = (r2, s2, ev1 ++ ev2).
Proof.
  intros Hs Hk Hnil Hh. unfold FeedFinder.discover_body, bind, lift, get_feeds.
  now rewrite Hs, Hk, Hnil, Hh.
Qed.

(** [_discover_feeds] always returns a result: what the body did decides
    status and message, the list in [result['feeds']] is returned as it is. *)
Lemma discover_of_body raw s r1 s1 ev1 :
  FeedFinder.discover_body E self (FeedFinder._clean_url raw) (with_feeds [] s) = (r1, s1, ev1) ->
  FeedFinder._discover_feeds E self raw s
  = (Ret {| url := FeedFinder._clean_url raw;
            feeds := result_feeds s1;
            status := match r1 with Ret _ => success | Exc _ => error end;
            error_message := match r1 with Ret _ => None | Exc e => Some e end |},
     s1, ev1).
Proof.
  intros Hb. unfold FeedFinder._discover_feeds, bind, try_except, set_feeds, get_feeds.
  fold (with_feeds [] s). unfold bind in Hb |- *. 
  destruct r1 as [[] | e]; rewrite Hb; simpl; now rewrite ?app_nil_r.
Qed.

(** Once the known-path phase has put a feed in the list, nothing more
    happens: the run ends in the state, and with the trace, of that phase. *)
Lemma hit_ends_run raw s session r1 s1 ev1 :
  ClientSession E (FeedFinder.timeout self) (FeedFinder.max_redirects self) = Ret session ->
  FeedFinder.known_path_phase E self session (FeedFinder._clean_url raw) (with_feeds [] s)
    = (r1, s1, ev1) ->
  result_feeds s1 <> [] ->
  exists st msg,
    FeedFinder._discover_feeds E self raw s
    = (Ret {| url := FeedFinder._clean_url raw; feeds := result_feeds s1;
              status := st; error_message := msg |}, s1, ev1).
Proof.
  intros Hs Hk Hne. destruct r1 as [[] | e].
  - do 2 eexists. apply (discover_of_body raw s (Ret tt)).
    now apply (body_known_path_hit _ _ session).
  - do 2 eexists. apply (discover_of_body raw s (Exc e)).
    now apply (body_known_path_failure _ _ session).
Qed.



(** A fallback that raises leaves the list as it found it. *)
Lemma fallback_exc_keeps session url s1 e s2 ev2 :
  FeedFinder.html_fallback_phase E self session url s1 = (Exc e, s2, ev2) ->
  result_feeds s2 = result_feeds s1.
Proof.
  unfold FeedFinder.html_fallback_phase. intros H.
  apply bind_inv in H.
  destruct H as [(fetched & sa & eva & evb & Hf & H & _) | (e' & Hf & _)];
    [ | exact (keeps_fetch_url _ _ _ _ _ _ _ _ Hf)].
  rewrite <- (keeps_fetch_url _ _ _ _ _ _ _ _ Hf).
  apply bind_inv in H.
  destruct H as [(pair & sb & evc & evd & Hu & H & _) | (e' & Hu & _)];
    [ | exact (keeps_unpack _ _ _ _ _ Hu)].
  rewrite <- (keeps_unpack _ _ _ _ _ Hu).
  destruct (_ && _); [ | discriminate H].
  apply bind_inv in H.
  destruct H as [(html & sc & eve & evf & _ & H & _) | (e' & Hh & _)];
    [discriminate H | exact (keeps_find_feeds_in_html _ _ _ _ _ _ _ _ _ Hh)].
Qed.

Lemma probes_nth session url paths s outcomes s' ev :
  probes E self session url paths s outcomes s' ev ->
  forall i path f,
    nth_error paths i = Some path -> nth_error outcomes i = Some (Some f) ->
    urljoin E url path = Ret (feed_url f).
Proof.
  induction 1 as [ | path0 paths s u o s1 ev1 os s2 ev2 Hj Hc _ IH]; intros i path f Hp Ho.
  - now destruct i.
  - destruct i as [ | i]; simpl in Hp, Ho.
    + injection Hp as <-. injection Ho as ->.
      now rewrite (check_feed_url_url _ _ _ _ _ _ Hc).
    + eauto.
Qed.

(** C2.  A run that ends with status [success] has opened a session and
    probed every entry of [COMMON_PATHS], in list order, one check after the
    other, whatever the earlier checks found: its trace starts with the
    trace of these sixteen checks.  When any of them validated, the result's
    feeds are the hits, in list order, and nothing else was done; in
    particular, when [/feed] and [/rss.xml] are the two paths that validated,
    the feeds are exactly these two, in this order, each with the URL its
    path was joined to. *)
Theorem known_paths_all_probed (raw : string) (s s' : State) (r : SiteResult)
    (ev : list Event) :
  FeedFinder._discover_feeds E self raw s = (Ret r, s', ev) ->
  status r = success ->
  exists session outcomes s1 ev1 ev2,
    ClientSession E (FeedFinder.timeout self) (FeedFinder.max_redirects self) = Ret session
    /\ probes E self session (FeedFinder._clean_url raw) FeedFinder.COMMON_PATHS
         (with_feeds [] s) outcomes s1 ev1
    /\ List.length outcomes = List.length FeedFinder.COMMON_PATHS
    /\ ev = ev1 ++ ev2
    /\ (hits outcomes <> [] -> feeds r = hits outcomes /\ ev2 = [])
    /\ (forall a b, outcomes = only_feed_and_rss_xml a b ->
          feeds r = [a; b]
          /\ urljoin E (FeedFinder._clean_url raw) "/feed" = Ret (feed_url a)
          /\ urljoin E (FeedFinder._clean_url raw) "/rss.xml" = Ret (feed_url b)).
Proof.
  intros Hrun Hok.
  destruct (ClientSession E (FeedFinder.timeout self) (FeedFinder.max_redirects self))
    as [session | e] eqn:Hs.
  2:{ rewrite (discover_of_body raw s _ _ _ (body_session_failure _ _ _ Hs)) in Hrun.
      injection Hrun as <- _ _. discriminate Hok. }
  destruct (FeedFinder.known_path_phase E self session (FeedFinder._clean_url raw)
              (with_feeds [] s)) as [[[[] | e] s1] ev1] eqn:Hk.
  2:{ rewrite (discover_of_body raw s _ _ _ (body_known_path_failure _ _ _ _ _ _ Hs Hk)) in Hrun.
      injection Hrun as <- _ _. discriminate Hok. }
  destruct (for_in_probes _ _ _ _ _ _ Hk) as [outcomes Hp].
  destruct (probes_feeds _ _ _ _ _ _ _ Hp) as [Hfeeds Hlen]. simpl in Hfeeds.
  assert (Hhit : hits outcomes <> [] ->
                 feeds r = hits outcomes /\ ev = ev1 ++ []).
  { intros Hne. rewrite <- Hfeeds in Hne.
    rewrite (discover_of_body raw s _ _ _ (body_known_path_hit _ _ _ _ _ Hs Hk Hne)) in Hrun.
    injection Hrun as <- _ <-. simpl. now rewrite app_nil_r. }
  destruct (hits outcomes) as [ | f fs] eqn:Hh.
  - destruct (FeedFinder.html_fallback_phase E self session (FeedFinder._clean_url raw) s1)
      as [[r2 s2] ev2] eqn:Hf.
    rewrite (discover_of_body raw s _ _ _ (body_known_path_miss _ _ _ _ _ _ _ _ Hs Hk Hfeeds Hf))
      in Hrun.
    injection Hrun as _ _ <-.
    exists session, outcomes, s1, ev1, ev2.
    split; [reflexivity | ]. split; [assumption | ]. split; [assumption | ].
    split; [reflexivity | ]. split; [congruence | ].
    intros a b ->. discriminate Hh.
  - destruct Hhit as [Hr Hev]; [discriminate | ].
    exists session, outcomes, s1, ev1, [].
    split; [reflexivity | ]. split; [assumption | ]. split; [assumption | ].
    split; [assumption | ]. split; [intros _; split; [congruence | reflexivity] | ].
    intros a b ->. split; [ | split].
    + rewrite Hr, <- Hh. reflexivity.
    + exact (probes_nth _ _ _ _ _ _ _ Hp 0%nat _ _ eq_refl eq_refl).
    + exact (probes_nth _ _ _ _ _ _ _ Hp 4%nat _ _ eq_refl eq_refl).
Qed.

Lemma keeps_check_all session candidates :
  keeps_feeds (check_all E self session candidates).
Proof.
  apply keeps_for_in. intros acc x. unfold check_step.
  apply keeps_bind; [apply keeps_check_feed_url | intros o; apply keeps_ret].
Qed.

(** The fallback starts with the fetch of the site's URL. *)
Lemma fallback_starts_with_fetch session url s1 fetched s2 ev2 r s3 ev :
  FeedFinder._fetch_url E self session url s1 = (fetched, s2, ev2) ->
  FeedFinder.html_fallback_phase E self session url s1 = (r, s3, ev) ->
  exists ev3, ev = ev2 ++ ev3.
Proof.
  intros Hf H. unfold FeedFinder.html_fallback_phase in H. apply bind_inv in H.
  destruct H as [(v & sa & eva & evb & Hf' & _ & ->) | (e & Hf' & _)];
    rewrite Hf in Hf'; injection Hf' as _ _ <-.
  - now exists evb.
  - exists []. now rewrite app_nil_r.
Qed.

(** C1.  Let the session be set up and the known-path phase end in state
    [s1] with trace [ev1].  If the list then holds a feed, the whole run ends
    right there, in [s1] with trace [ev1]: the site URL is not fetched and no
    page is scanned.  If the phase returned and the list is empty, the run
    goes on with the fetch of the site URL; and if that fetch returns status
    200 with a body, which the HTML parser accepts and whose references can
    be resolved, the candidates of the page are validated in scan order and
    the feeds found among them, in that order, are the result's feeds. *)
Theorem fallback_iff_no_known_path_feed (raw : string) (s : State) (session : Session)
    (r1 : res unit) (s1 : State) (ev1 : list Event) :
  ClientSession E (FeedFinder.timeout self) (FeedFinder.max_redirects self) = Ret session ->
  FeedFinder.known_path_phase E self session (FeedFinder._clean_url raw) (with_feeds [] s)
    = (r1, s1, ev1) ->
  (result_feeds s1 <> [] ->
     exists st msg,
       FeedFinder._discover_feeds E self raw s
       = (Ret {| url := FeedFinder._clean_url raw; feeds := result_feeds s1;
                 status := st; error_message := msg |}, s1, ev1))
  /\
  (r1 = Ret tt -> result_feeds s1 = [] ->
     exists fetched s2 ev2,
       FeedFinder._fetch_url E self session (FeedFinder._clean_url raw) s1 = (fetched, s2, ev2)
       /\ (exists r s3 ev3,
             FeedFinder._discover_feeds E self raw s = (Ret r, s3, ev1 ++ ev2 ++ ev3))
       /\ (forall content soup candidates html s4 ev4,
             fetched = Ret (Some (content, 200)) -> content <> "" ->
             BeautifulSoup E content = Ret soup ->
             scan E (FeedFinder._clean_url raw) soup = Ret candidates ->
             check_all E self session candidates s2 = (Ret html, s4, ev4) ->
             FeedFinder._discover_feeds E self raw s
             = (Ret {| url := FeedFinder._clean_url raw; feeds := html;
                       status := success; error_message := None |},
                with_feeds html s4, ev1 ++ ev2 ++ ev4))).
Proof.
  intros Hs Hk. split; [now apply hit_ends_run with (session := session) (r1 := r1) | ].
  intros -> Hnil.
  destruct (FeedFinder._fetch_url E self session (FeedFinder._clean_url raw) s1)
    as [[fetched s2] ev2] eqn:Hf.
  exists fetched, s2, ev2. split; [reflexivity | ]. split.
  - destruct (FeedFinder.html_fallback_phase E self session (FeedFinder._clean_url raw) s1)
      as [[r2 s3] ev] eqn:Hh.
    destruct (fallback_starts_with_fetch _ _ _ _ _ _ _ _ _ Hf Hh) as [ev3 ->].
    eexists _, s3, ev3.
    exact (discover_of_body raw s _ _ _ (body_known_path_miss _ _ _ _ _ _ _ _ Hs Hk Hnil Hh)).
  - intros content soup candidates html s4 ev4 -> Hne Hsoup Hscan Hcheck.
    pose proof (fallback_scan _ _ _ _ _ _ _ _ _ _ _ Hf Hne Hsoup Hscan Hcheck) as Hh.
    rewrite (keeps_check_all _ _ _ _ _ _ Hcheck) in Hh.
    rewrite (keeps_fetch_url _ _ _ _ _ _ _ _ Hf), Hnil in Hh. simpl in Hh.
    exact (discover_of_body raw s _ _ _ (body_known_path_miss _ _ _ _ _ _ _ _ Hs Hk Hnil Hh)).
Qed.

(** C6, amended.  A result with status [error] carries the list as the
    failure left it.  The list is empty when the session could not be set
    up and when the known-path phase had returned (the failure is then in
    the fallback, which starts from an empty list and extends it only after
    its whole scan).  When a check of the known-path phase raised, the list
    holds the hits of the paths probed before it, in list order, and the
    message is that of the failure. *)
Theorem error_result_feeds (raw : string) (s s' : State) (r : SiteResult)
    (ev : list Event) :
  FeedFinder._discover_feeds E self raw s = (Ret r, s', ev) ->
  status r = error ->
  (forall e,
     ClientSession E (FeedFinder.timeout self) (FeedFinder.max_redirects self) = Exc e ->
     feeds r = [])
  /\
  (forall session r1 s1 ev1,
     ClientSession E (FeedFinder.timeout self) (FeedFinder.max_redirects self) = Ret session ->
     FeedFinder.known_path_phase E self session (FeedFinder._clean_url raw) (with_feeds [] s)
       = (r1, s1, ev1) ->
     (r1 = Ret tt -> feeds r = [])
     /\ (forall e, r1 = Exc e ->
           exists done path rest outcomes sm evm,
             FeedFinder.COMMON_PATHS = done ++ path :: rest
             /\ probes E self session (FeedFinder._clean_url raw) done (with_feeds [] s) outcomes sm evm
             /\ feeds r = hits outcomes
             /\ error_message r = Some e)).
Proof.
  intros Hrun Herr. split.
  - intros e Hs.
    rewrite (discover_of_body raw s _ _ _ (body_session_failure _ _ _ Hs)) in Hrun.
    now injection Hrun as <- _ _.
  - intros session r1 s1 ev1 Hs Hk. split.
    + intros ->.
      destruct (result_feeds s1) as [ | f fs] eqn:Hfs.
      * destruct (FeedFinder.html_fallback_phase E self session (FeedFinder._clean_url raw) s1)
          as [[[[] | e] s2] ev2] eqn:Hh;
          rewrite (discover_of_body raw s _ _ _
                     (body_known_path_miss _ _ _ _ _ _ _ _ Hs Hk Hfs Hh)) in Hrun;
          injection Hrun as <- _ _; [discriminate Herr | ].
        simpl. now rewrite (fallback_exc_keeps _ _ _ _ _ _ Hh).
      * assert (Hne : result_feeds s1 <> []) by congruence.
        rewrite (discover_of_body raw s _ _ _ (body_known_path_hit _ _ _ _ _ Hs Hk Hne)) in Hrun.
        injection Hrun as <- _ _. discriminate Herr.
    + intros e ->.
      rewrite (discover_of_body raw s _ _ _ (body_known_path_failure _ _ _ _ _ _ Hs Hk)) in Hrun.
      injection Hrun as <- _ _.
      destruct (for_in_probes_exc _ _ _ _ _ _ _ Hk)
        as (done & path & rest & outcomes & sm & evm & evl & Hsplit & Hp & Hlast & Hkeep & _).
      exists done, path, rest, outcomes, sm, evm.
      split; [assumption | ]. split; [assumption | ]. split; [ | reflexivity].
      simpl. rewrite Hkeep.
      now destruct (probes_feeds _ _ _ _ _ _ _ Hp) as [-> _].
Qed.


End Discovery.

(** ** A site that cannot be reached *)

Section Unreachable.

Variable E : Env.
Variable self : FeedFinder.t.
Hypothesis Hdown : forall session n u, exists e, session_get E session n u = Exc e.
Hypothesis Hrate : Qeq_bool (rate_of (FeedFinder.rate_limiter self)) 0 = false.
Hypothesis Hretries : 1 <= RetryStrategy.max_retries (FeedFinder.retry_strategy self).






End Unreachable.

(** ** Requests, locks and provenance of a run *)

(** X8.  One fetch, however it ends, takes the rate limiter's lock exactly
    once and sends at most [max_retries] requests, all of them to the URL
    it was asked for: retries are not rate limited again. *)
Theorem fetch_url_requests (E : Env) (self : FeedFinder.t) (session : Session)
    (u : string) (s s' : State) (r : res (option (string * Z))) (ev : list Event) :
  FeedFinder._fetch_url E self session u s = (r, s', ev) ->
  lock_acquisitions ev = 1%nat
  /\ exists k,
       gets ev = repeat u k
       /\ (k <= Z.to_nat (RetryStrategy.max_retries (FeedFinder.retry_strategy self)))%nat
       /\ requests s' = (requests s + k)%nat.
Proof.
  intros H. destruct (fetch_url_trace _ _ _ _ _ _ _ _ H) as (Hl & _ & Hk).
  split; assumption.
Qed.

(** A result the retry loop returns is an answer of the transport. *)
Lemma execute_loop_some {A} self (answer : nat -> res A) u attempts :
  forall s a s' ev,
    RetryStrategy.execute_loop self (scripted answer u) attempts s = (Ret (Some a), s', ev) ->
    exists n, answer n = Ret a.
Proof.
  induction attempts as [ | i attempts IH]; intros s a s' ev H; [discriminate H | ].
  cbn [RetryStrategy.execute_loop] in H. apply bind_inv in H.
  destruct H as [(o & s1 & ev1 & ev2 & Ha & H & _) | (e & _ & H)]; [ | discriminate H].
  destruct o as [a' | ]; [ | exact (IH _ _ _ _ H)].
  injection H as <- _ _. exists (requests s).
  unfold RetryStrategy.attempt_once, try_except, bind, scripted in Ha.
  destruct (answer (requests s)) as [a0 | e]; [now injection Ha as <- | ].
  destruct (_ =? _); [discriminate Ha | ].
  unfold lift in Ha. destruct (RetryStrategy.backoff self i); discriminate Ha.
Qed.

(** A body that [_fetch_url] returns with status 200 was served for the
    URL: the pair the fetch makes up after a failure has status 0. *)
Lemma fetch_url_served (E : Env) self session u s content s' ev :
  FeedFinder._fetch_url E self session u s = (Ret (Some (content, 200)), s', ev) ->
  served E session u content.
Proof.
  unfold FeedFinder._fetch_url. intros H. apply bind_inv in H.
  destruct H as [([] & s1 & ev1 & ev2 & _ & H & _) | (e & _ & H)]; [ | discriminate H].
  unfold try_except in H.
  destruct (RetryStrategy.execute _ _ s1) as [[[v | e] s2] ev3] eqn:Hexec.
  - injection H as -> _ _.
    exact (execute_loop_some _ (fun n => session_get E session n u) _ _ _ _ _ _ Hexec).
  - cbn in H. discriminate H.
Qed.

Lemma validate_trace E u content st s r s' ev :
  FeedFinder.validate E u content st s = (r, s', ev) ->
  s' = s /\ gets ev = [] /\ lock_acquisitions ev = 0%nat
  /\ (ev = [] \/ ev = [EParse content] /\ st = 200).
Proof.
  unfold FeedFinder.validate. destruct (negb (st =? 200)) eqn:Hst.
  - intros [= <- <- <-]. repeat split. now left.
  - apply negb_false_iff, Z.eqb_eq in Hst. cbn [orb].
    destruct (negb (nonempty content)); [intros [= <- <- <-]; repeat split; now left | ].
    unfold bind, FeedFinder.parse_feed.
    destruct (feedparser_parse E (requests s) content) as [parsed | e];
      [destruct (FeedFinder.well_formed parsed) | ];
      intros [= <- <- <-]; repeat split; right; split; auto.
Qed.

Lemma unpack_quiet {A} (v : option A) s r s' ev :
  unpack v s = (r, s', ev) -> s' = s /\ ev = [].
Proof. destruct v; now intros [= <- <- <-]. Qed.

(** One check: one lock, at most [max_retries] requests, all to the URL
    checked, and at most one call of the feed parser, on a body that was
    served for that URL with status 200. *)
Lemma check_feed_url_trace (E : Env) (self : FeedFinder.t) (session : Session)
    (u : string) (s s' : State) (r : res (option Feed)) (ev : list Event) :
  FeedFinder._check_feed_url E self session u s = (r, s', ev) ->
  lock_acquisitions ev = 1%nat
  /\ (exists k,
        gets ev = repeat u k
        /\ (k <= Z.to_nat (RetryStrategy.max_retries (FeedFinder.retry_strategy self)))%nat
        /\ requests s' = (requests s + k)%nat)
  /\ (parses ev = []
      \/ exists content, parses ev = [content] /\ served E session u content).
Proof.
  unfold FeedFinder._check_feed_url. intros H. apply bind_inv in H.
  destruct H as [(fetched & s1 & ev1 & ev2 & Hf & H & ->) | (e & Hf & _)].
  2:{ destruct (fetch_url_trace _ _ _ _ _ _ _ _ Hf) as (Hl & Hp & Hk).
      split; [exact Hl | split; [exact Hk | now left]]. }
  destruct (fetch_url_trace _ _ _ _ _ _ _ _ Hf) as (Hl & Hp & k & Hg & Hk & Hr).
  apply bind_inv in H.
  destruct H as [(pair & s2 & ev3 & ev4 & Hu & Hv & ->) | (e & Hu & _)].
  - destruct (unpack_quiet _ _ _ _ _ Hu) as [-> ->].
    destruct (validate_trace _ _ _ _ _ _ _ _ Hv) as (-> & Hg2 & Hl2 & Hev).
    rewrite !locks_app, !gets_app, !parses_app, Hl, Hl2, Hg2, Hp, app_nil_r. cbn [app].
    split; [reflexivity | split; [now exists k | ]].
    destruct Hev as [-> | [-> Hst]]; [now left | right].
    exists (fst pair). split; [reflexivity | ].
    destruct fetched as [[content st] | ]; [ | discriminate Hu].
    injection Hu as <-. cbn [fst snd] in *. subst st.
    exact (fetch_url_served _ _ _ _ _ _ _ _ Hf).
  - destruct (unpack_quiet _ _ _ _ _ Hu) as [-> ->]. rewrite app_nil_r.
    split; [exact Hl | split; [now exists k | now left]].
Qed.

Lemma check_feed_url_requests (E : Env) (self : FeedFinder.t) (session : Session)
    (u : string) (s s' : State) (r : res (option Feed)) (ev : list Event) :
  FeedFinder._check_feed_url E self session u s = (r, s', ev) ->
  lock_acquisitions ev = 1%nat
  /\ exists k,
       gets ev = repeat u k
       /\ (k <= Z.to_nat (RetryStrategy.max_retries (FeedFinder.retry_strategy self)))%nat
       /\ requests s' = (requests s + k)%nat.
Proof.
  intros H. destruct (check_feed_url_trace _ _ _ _ _ _ _ _ H) as (Hl & Hk & _).
  split; assumption.
Qed.

(** *** Loops: what holds of each pass holds of the whole *)

Section Loops.

Context {A S X : Type}.
Variable read : list Event -> list X.
Hypothesis read_app : forall a b, read (a ++ b) = read a ++ read b.
Hypothesis read_nil : read [] = [].
Variable body : S -> A -> M S.

Lemma for_in_forall (P : X -> Prop) (items : list A) :
  (forall acc x s r s' ev,
      In x items -> body acc x s = (r, s', ev) -> Forall P (read ev)) ->
  forall acc s r s' ev,
    for_in items body acc s = (r, s', ev) -> Forall P (read ev).
Proof.
  induction items as [ | x items IH]; intros Hbody acc s r s' ev H.
  - injection H as _ _ <-. rewrite read_nil. constructor.
  - cbn [for_in] in H. apply bind_inv in H.
    destruct H as [(acc1 & s1 & ev1 & ev2 & Hb & Hrest & ->) | (e & Hb & _)].
    + rewrite read_app. apply Forall_app. split.
      * exact (Hbody _ _ _ _ _ _ (or_introl eq_refl) Hb).
      * apply (IH (fun acc x s r s' ev Hin => Hbody acc x s r s' ev (or_intror Hin))
                 _ _ _ _ _ Hrest).
    + exact (Hbody _ _ _ _ _ _ (or_introl eq_refl) Hb).
Qed.

Lemma for_in_length (n : nat) (items : list A) :
  (forall acc x s r s' ev,
      body acc x s = (r, s', ev) -> (List.length (read ev) <= n)%nat) ->
  forall acc s r s' ev,
    for_in items body acc s = (r, s', ev) ->
    (List.length (read ev) <= n * List.length items)%nat.
Proof.
  intros Hbody. induction items as [ | x items IH]; intros acc s r s' ev H.
  - injection H as _ _ <-. rewrite read_nil. simpl. lia.
  - cbn [for_in] in H. apply bind_inv in H.
    destruct H as [(acc1 & s1 & ev1 & ev2 & Hb & Hrest & ->) | (e & Hb & _)].
    + rewrite read_app, length_app.
      pose proof (Hbody _ _ _ _ _ _ Hb). pose proof (IH _ _ _ _ _ Hrest).
      cbn [List.length]. lia.
    + pose proof (Hbody _ _ _ _ _ _ Hb). cbn [List.length]. lia.
Qed.

End Loops.

Lemma for_in_locks {A S} (body : S -> A -> M S) (items : list A) :
  (forall acc x s r s' ev,
      body acc x s = (r, s', ev) ->
      (lock_acquisitions ev <= 1)%nat
      /\ (forall acc', r = Ret acc' -> lock_acquisitions ev = 1%nat)) ->
  forall acc s r s' ev,
    for_in items body acc s = (r, s', ev) ->
    (lock_acquisitions ev <= List.length items)%nat
    /\ (forall acc', r = Ret acc' -> lock_acquisitions ev = List.length items).
Proof.
  intros Hbody. induction items as [ | x items IH]; intros acc s r s' ev H.
  - injection H as _ _ <-. simpl. split; [lia | reflexivity].
  - cbn [for_in] in H. apply bind_inv in H.
    destruct H as [(acc1 & s1 & ev1 & ev2 & Hb & Hrest & ->) | (e & Hb & ->)].
    + destruct (Hbody _ _ _ _ _ _ Hb) as [Hle Heq].
      destruct (IH _ _ _ _ _ Hrest) as [Hle2 Heq2].
      rewrite locks_app, (Heq acc1 eq_refl). cbn [List.length].
      split; [lia | intros acc' ->; now rewrite (Heq2 acc' eq_refl)].
    + destruct (Hbody _ _ _ _ _ _ Hb) as [Hle _]. cbn [List.length].
      split; [lia | discriminate].
Qed.

Lemma Forall_repeat {X} (P : X -> Prop) x k : P x -> Forall P (repeat x k).
Proof. intros Hx. apply Forall_forall. intros v Hv. apply repeat_spec in Hv. now subst. Qed.

Section Accounting.

Variable E : Env.
Variable self : FeedFinder.t.

Let budget : nat := Z.to_nat (RetryStrategy.max_retries (FeedFinder.retry_strategy self)).

(** One probe: every request goes to the URL its path was joined to. *)
Lemma probe_trace session url acc path s r s' ev :
  FeedFinder.probe E self session url acc path s = (r, s', ev) ->
  (lock_acquisitions ev <= 1)%nat
  /\ (forall acc', r = Ret acc' -> lock_acquisitions ev = 1%nat)
  /\ Forall (fun u => urljoin E url path = Ret u) (gets ev)
  /\ (List.length (gets ev) <= budget)%nat
  /\ (List.length (parses ev) <= 1)%nat
  /\ Forall (fun content => exists u, served E session u content) (parses ev).
Proof.
  unfold FeedFinder.probe. intros H. apply bind_inv in H.
  destruct H as [(u & s0 & ev0 & ev' & Hj & H & ->) | (e & Hj & ->)].
  2:{ injection Hj as _ _ <-. simpl.
      repeat split; try lia; try constructor. discriminate. }
  unfold lift in Hj. injection Hj as Hj <- <-. cbn [app].
  assert (Hc : exists o s1 ev1,
             FeedFinder._check_feed_url E self session u s = (o, s1, ev1)
             /\ gets ev' = gets ev1 /\ parses ev' = parses ev1
             /\ lock_acquisitions ev' = lock_acquisitions ev1).
  { apply bind_inv in H.
    destruct H as [(o & s1 & ev1 & ev2 & Hc & Ha & ->) | (e & Hc & _)].
    - exists (Ret o), s1, ev1. split; [exact Hc | ].
      assert (ev2 = []) as -> by (destruct o; now injection Ha as _ _ <-).
      now rewrite app_nil_r.
    - now exists (Exc e), s', ev'. }
  destruct Hc as (o & s1 & ev1 & Hc & -> & -> & ->).
  destruct (check_feed_url_trace _ _ _ _ _ _ _ _ Hc) as (Hl & (k & Hg & Hk & _) & Hp).
  rewrite Hl, Hg, repeat_length.
  split; [lia | split; [reflexivity | split; [now apply Forall_repeat | split; [exact Hk | ]]]].
  destruct Hp as [-> | (content & -> & Hserved)].
  - split; [simpl; lia | constructor].
  - split; [simpl; lia | ]. constructor; [now exists u | constructor].
Qed.


(** The lock, the requests and the parses of the known-path phase. *)
Lemma known_path_trace (session : Session) (url : string) (s s' : State)
    (r : res unit) (ev : list Event) :
  FeedFinder.known_path_phase E self session url s = (r, s', ev) ->
  Forall (known_path_url E url) (gets ev)
  /\ (List.length (gets ev) <= budget * 16)%nat
  /\ (lock_acquisitions ev <= 16)%nat
  /\ (r = Ret tt -> lock_acquisitions ev = 16%nat)
  /\ (List.length (parses ev) <= 16)%nat
  /\ Forall (fun content => exists u, served E session u content) (parses ev).
Proof.
  unfold FeedFinder.known_path_phase. intros H.
  split; [ | split; [ | split; [ | split; [ | split]]]].
  - apply (for_in_forall gets gets_app eq_refl (FeedFinder.probe E self session url)
             (known_path_url E url) FeedFinder.COMMON_PATHS) in H; [exact H | ].
    intros acc path s0 r0 s0' ev0 Hin Hb.
    destruct (probe_trace _ _ _ _ _ _ _ _ Hb) as (_ & _ & HF & _).
    eapply Forall_impl; [ | exact HF]. intros u Hu. now exists path.
  - apply (for_in_length gets gets_app eq_refl (FeedFinder.probe E self session url)
             budget FeedFinder.COMMON_PATHS) in H; [exact H | ].
    intros acc path s0 r0 s0' ev0 Hb. apply (probe_trace _ _ _ _ _ _ _ _ Hb).
  - apply (for_in_locks (FeedFinder.probe E self session url) FeedFinder.COMMON_PATHS) in H;
      [exact (proj1 H) | ].
    intros acc path s0 r0 s0' ev0 Hb.
    destruct (probe_trace _ _ _ _ _ _ _ _ Hb) as (Hle & Heq & _). now split.
  - intros ->.
    apply (for_in_locks (FeedFinder.probe E self session url) FeedFinder.COMMON_PATHS) in H;
      [exact (proj2 H tt eq_refl) | ].
    intros acc path s0 r0 s0' ev0 Hb.
    destruct (probe_trace _ _ _ _ _ _ _ _ Hb) as (Hle & Heq & _). now split.
  - apply (for_in_length parses parses_app eq_refl (FeedFinder.probe E self session url)
             1%nat FeedFinder.COMMON_PATHS) in H; [exact H | ].
    intros acc path s0 r0 s0' ev0 Hb. apply (probe_trace _ _ _ _ _ _ _ _ Hb).
  - apply (for_in_forall parses parses_app eq_refl (FeedFinder.probe E self session url)
             (fun content => exists u, served E session u content)
             FeedFinder.COMMON_PATHS) in H; [exact H | ].
    intros acc path s0 r0 s0' ev0 _ Hb. apply (probe_trace _ _ _ _ _ _ _ _ Hb).
Qed.

(** X9.  The known-path phase, however it ends, calls [session.get] only
    on URLs made of the site URL and a known path, at most [max_retries]
    times sixteen times, and takes the lock at most sixteen times: exactly
    sixteen when it returns.  It calls the feed parser at most sixteen
    times. *)
Theorem known_path_requests (session : Session) (url : string) (s s' : State)
    (r : res unit) (ev : list Event) :
  FeedFinder.known_path_phase E self session url s = (r, s', ev) ->
  Forall (known_path_url E url) (gets ev)
  /\ (List.length (gets ev)
      <= Z.to_nat (RetryStrategy.max_retries (FeedFinder.retry_strategy self)) * 16)%nat
  /\ (lock_acquisitions ev <= 16)%nat
  /\ (r = Ret tt -> lock_acquisitions ev = 16%nat)
  /\ (List.length (parses ev) <= 16)%nat.
Proof.
  intros H. destruct (known_path_trace _ _ _ _ _ _ H) as (H1 & H2 & H3 & H4 & H5 & _).
  repeat split; assumption.
Qed.

End Accounting.

Section Runs.

Variable E : Env.
Variable self : FeedFinder.t.


(** [find_feed] outside a running loop is [_discover_feeds]. *)
Lemma find_feed_outside_loop raw s :
  running_loop E = false ->
  FeedFinder.find_feed E self raw s = FeedFinder._discover_feeds E self raw s.
Proof. intros Hloop. unfold FeedFinder.find_feed, asyncio_run. now rewrite Hloop. Qed.


(** X6.  A finder configured with a rate of zero sends no request: once
    the first known path is joined to the URL, the first [acquire] raises on
    [1/self.rate] with the lock held, the lock is released, and the run is
    an [error] without feeds whose message is that of the division. *)
Theorem zero_rate_fails_before_any_request (raw : string) (s : State) (session : Session)
    (u : string) :
  ClientSession E (FeedFinder.timeout self) (FeedFinder.max_redirects self) = Ret session ->
  urljoin E (FeedFinder._clean_url raw) "/feed" = Ret u ->
  Qeq_bool (rate_of (FeedFinder.rate_limiter self)) 0 = true ->
  FeedFinder._discover_feeds E self raw s
  = (Ret {| url := FeedFinder._clean_url raw; feeds := [];
            status := error;
            error_message :=
              Some (RateLimiter.zero_division
                      (RateLimiter.rate (FeedFinder.rate_limiter self))) |},
     with_feeds [] s, [ELockAcquire; ELockRelease]).
Proof.
  intros Hs Hj Hrate.
  apply (discover_of_body E self raw s (Exc _) (with_feeds [] s)).
  apply (body_known_path_failure E self _ _ session); [exact Hs | ].
  unfold FeedFinder.known_path_phase, FeedFinder.COMMON_PATHS. cbn [for_in].
  apply bind_exc. apply (probe_exc E self session _ _ u); [exact Hj | ].
  unfold FeedFinder._check_feed_url. apply bind_exc.
  unfold FeedFinder._fetch_url. apply bind_exc.
  now apply acquire_zero_rate.
Qed.



(** X12.  When no known path validated and the home page comes back with
    a status other than 200 or with an empty body, nothing is parsed or
    scanned: the run is a [success] without feeds and ends with that
    fetch.  Outside a running event loop this is what [find_feed]
    returns. *)
Theorem fallback_skips_bad_page (raw : string) (s : State) (session : Session)
    (s1 s2 : State) (ev1 ev2 : list Event) (content : string) (code : Z) :
  ClientSession E (FeedFinder.timeout self) (FeedFinder.max_redirects self) = Ret session ->
  FeedFinder.known_path_phase E self session (FeedFinder._clean_url raw) (with_feeds [] s)
    = (Ret tt, s1, ev1) ->
  result_feeds s1 = [] ->
  FeedFinder._fetch_url E self session (FeedFinder._clean_url raw) s1
    = (Ret (Some (content, code)), s2, ev2) ->
  code <> 200 \/ content = "" ->
  FeedFinder._discover_feeds E self raw s
  = (Ret {| url := FeedFinder._clean_url raw; feeds := [];
            status := success; error_message := None |}, s2, ev1 ++ ev2)
  /\ (running_loop E = false ->
      FeedFinder.find_feed E self raw s
      = (Ret {| url := FeedFinder._clean_url raw; feeds := [];
                status := success; error_message := None |}, s2, ev1 ++ ev2)).
Proof.
  intros Hs Hk Hnil Hf Hbad.
  assert (Hh : FeedFinder.html_fallback_phase E self session (FeedFinder._clean_url raw) s1
               = (Ret tt, s2, ev2 ++ [] ++ [])).
  { unfold FeedFinder.html_fallback_phase.
    eapply bind_ret; [exact Hf | ]. eapply bind_ret; [reflexivity | ].
    cbn [fst snd].
    assert (Hguard : (code =? 200) && nonempty content = false).
    { destruct Hbad as [Hc | ->]; [ | apply andb_false_r].
      apply Z.eqb_neq in Hc. now rewrite Hc. }
    now rewrite Hguard. }
  rewrite !app_nil_r in Hh.
  pose proof (discover_of_body E self raw s _ _ _
                (body_known_path_miss E self _ _ _ _ _ _ _ _ Hs Hk Hnil Hh)) as Hrun.
  rewrite (keeps_fetch_url _ _ _ _ _ _ _ _ Hf), Hnil in Hrun.
  split; [exact Hrun | ]. intros Hloop. now rewrite find_feed_outside_loop.
Qed.

Lemma subseq_nil_l {A} (l : list A) : subseq [] l.
Proof. induction l; constructor; assumption. Qed.

Lemma subseq_app {A} (a b c d : list A) :
  subseq a b -> subseq c d -> subseq (a ++ c) (b ++ d).
Proof.
  induction 1; intros Hcd; simpl;
    [assumption | apply subseq_skip; auto | apply subseq_keep; auto].
Qed.

Lemma subseq_app_r {A} (a b c : list A) : subseq a b -> subseq a (b ++ c).
Proof.
  intros H. rewrite <- (app_nil_r a). apply subseq_app; [exact H | apply subseq_nil_l].
Qed.

Lemma subseq_length {A} (a b : list A) : subseq a b -> (List.length a <= List.length b)%nat.
Proof. induction 1; simpl; lia. Qed.












End Runs.

(** ** process_file, anchors and cleaning twice *)

Lemma fold_add_row_url rows :
  forall acc,
    fold_left FeedFinder.add_row_url rows acc
    = acc ++ flat_map (fun row => match row_url row with Some u => [u] | None => [] end) rows.
Proof.
  induction rows as [ | row rows IH]; intros acc; simpl; [now rewrite app_nil_r | ].
  rewrite IH. unfold FeedFinder.add_row_url, row_url.
  destruct (FeedFinder.py_or _ _) as [[ | c u] | ]; simpl;
    now rewrite <- ?app_assoc, ?app_nil_r.
Qed.

(** X15.  The URLs read from the input rows: at most one per row, in row
    order, never an empty string.  A row gives its non-empty [blog_url];
    without one (no entry, or an empty field) its non-empty [url]; without
    either the row is skipped. *)
Theorem process_file_urls_spec (rows : list (list (string * string))) :
  FeedFinder.process_file_urls rows
  = flat_map (fun row => match row_url row with Some u => [u] | None => [] end) rows
  /\ Forall (fun u => u <> "") (FeedFinder.process_file_urls rows)
  /\ (List.length (FeedFinder.process_file_urls rows) <= List.length rows)%nat
  /\ (forall row,
        match dict_get row "blog_url" with
        | Some (String c b) => row_url row = Some (String c b)
        | _ =>
            match dict_get row "url" with
            | Some (String c u) => row_url row = Some (String c u)
            | _ => row_url row = None
            end
        end).
Proof.
  assert (Heq : FeedFinder.process_file_urls rows
                = flat_map (fun row => match row_url row with Some u => [u] | None => [] end)
                    rows) by apply fold_add_row_url.
  split; [exact Heq | ]. rewrite Heq. clear Heq. split; [ | split].
  - induction rows as [ | row rows IH]; simpl; [constructor | ].
    apply Forall_app. split; [ | exact IH].
    unfold row_url. destruct (FeedFinder.py_or _ _) as [[ | c u] | ];
      repeat constructor. discriminate.
  - induction rows as [ | row rows IH]; simpl; [lia | ].
    rewrite length_app. destruct (row_url row); simpl; lia.
  - intros row. unfold row_url, FeedFinder.py_or.
    destruct (dict_get row "blog_url") as [[ | c b] | ]; [ | reflexivity | ];
      destruct (dict_get row "url") as [[ | c' u] | ]; reflexivity.
Qed.

Lemma result_rows_length r : List.length (FeedFinder.result_rows r) = row_count r.
Proof.
  unfold FeedFinder.result_rows, row_count.
  destruct (feeds r) as [ | f fs]; [reflexivity | ].
  rewrite length_map. simpl. lia.
Qed.

Lemma result_rows_columns r :
  Forall (fun row =>
            List.length row = 5%nat
            /\ nth 0 row "" = url r
            /\ nth 3 row "" = FeedFinder.status_str (status r))
         (FeedFinder.result_rows r).
Proof.
  unfold FeedFinder.result_rows. destruct (feeds r) as [ | f fs].
  - repeat constructor.
  - apply Forall_forall. intros row Hrow. apply in_map_iff in Hrow.
    destruct Hrow as (feed & <- & _). repeat split.
Qed.

(** The output for a batch: the header, then [max 1 (len feeds)] rows per
    result, each of five fields, each starting with the URL of a result and
    carrying its status. *)
Lemma process_file_rows_shape (results : list SiteResult) :
  hd_error (FeedFinder.process_file_rows results) = Some FeedFinder.HEADER
  /\ Forall (fun row => List.length row = 5%nat) (FeedFinder.process_file_rows results)
  /\ List.length (FeedFinder.process_file_rows results)
     = S (list_sum (map row_count results))
  /\ (List.length results < List.length (FeedFinder.process_file_rows results))%nat
  /\ Forall (fun row =>
               exists r, In r results
                 /\ nth 0 row "" = url r
                 /\ nth 3 row "" = FeedFinder.status_str (status r))
            (tl (FeedFinder.process_file_rows results)).
Proof.
  unfold FeedFinder.process_file_rows. cbn [hd_error tl List.length].
  assert (Hlen : List.length (flat_map FeedFinder.result_rows results)
                 = list_sum (map row_count results)).
  { induction results as [ | r results IH]; [reflexivity | ].
    simpl. now rewrite length_app, result_rows_length, IH. }
  assert (Hmin : (List.length results <= list_sum (map row_count results))%nat).
  { clear Hlen. induction results as [ | r results IH]; simpl; [lia | ].
    unfold row_count at 1. lia. }
  split; [reflexivity | split; [ | split; [now rewrite Hlen | split; [lia | ]]]].
  - constructor; [reflexivity | ].
    apply Forall_forall. intros row Hrow. apply in_flat_map in Hrow.
    destruct Hrow as (r & _ & Hrow).
    pose proof (result_rows_columns r) as HF. rewrite Forall_forall in HF.
    exact (proj1 (HF row Hrow)).
  - apply Forall_forall. intros row Hrow. apply in_flat_map in Hrow.
    destruct Hrow as (r & Hr & Hrow).
    pose proof (result_rows_columns r) as HF. rewrite Forall_forall in HF.
    exists r. split; [exact Hr | exact (proj2 (HF row Hrow))].
Qed.

(** X16.  What one result writes.  With feeds: one row per feed, in order,
    with the feed's URL and type and the message, if any.  Without feeds:
    one row with empty feed fields whose last field is never empty, the
    message or [No feeds found] when there is no message or an empty one. *)
Theorem result_rows_spec (r : SiteResult) :
  (feeds r <> [] ->
     map (fun row => (nth 1 row "", nth 2 row "", nth 4 row "")) (FeedFinder.result_rows r)
     = map (fun f => (feed_url f, FeedFinder.type_str (feed_type f),
                      match error_message r with Some e => e | None => "" end))
           (feeds r))
  /\ (feeds r = [] ->
      exists message,
        FeedFinder.result_rows r
        = [[url r; ""; ""; FeedFinder.status_str (status r); message]]
        /\ message <> ""
        /\ (error_message r = None \/ error_message r = Some "" -> message = "No feeds found")
        /\ (forall c e, error_message r = Some (String c e) -> message = String c e)).
Proof.
  unfold FeedFinder.result_rows. split.
  - intros Hne. destruct (feeds r) as [ | f fs]; [congruence | ].
    rewrite map_map. apply map_ext. intros feed. cbn [nth].
    unfold FeedFinder.str_or, FeedFinder.py_or.
    now destruct (error_message r) as [[ | c e] | ].
  - intros ->. unfold FeedFinder.str_or, FeedFinder.py_or.
    destruct (error_message r) as [[ | c e] | ]; eexists; (split; [reflexivity | ]);
      (split; [discriminate | ]); split; try reflexivity; try congruence.
    + intros [H | H]; discriminate H.
Qed.

Lemma rstrip_fixed (c : ascii) (s : string) :
  endswith_char c s = false -> rstrip c s = s.
Proof.
  induction s as [ | a s IH]; [reflexivity | ].
  destruct s as [ | b s].
  - simpl. now intros ->.
  - intros H. change (endswith_char c (String b s) = false) in H.
    specialize (IH H). remember (String b s) as t eqn:Ht.
    simpl. rewrite IH. now subst t.
Qed.

Lemma rstrip_app (c : ascii) (a b : string) :
  rstrip c (a ++ b)
  = match rstrip c b with
    | EmptyString => rstrip c a
    | _ => (a ++ rstrip c b)%string
    end.
Proof.
  induction a as [ | x a IH]; [simpl; now destruct (rstrip c b) | ].
  cbn [String.append rstrip]. rewrite IH.
  destruct (rstrip c b) as [ | y r]; [reflexivity | ].
  now destruct a.
Qed.

Lemma startswith_app (p s : string) : startswith p (p ++ s) = true.
Proof. apply startswith_spec. now exists s. Qed.

Section CleanTwice.

Variable url scheme rest : string.
Hypothesis Hscheme : scheme = "http://" \/ scheme = "https://".
Hypothesis Hsplit : with_scheme url = (scheme ++ rest)%string.

(** X19.  Cleaning a cleaned URL.  When something other than slashes
    follows the scheme, the cleaned URL is the scheme and the rest less its
    trailing slashes, and cleaning it again changes nothing.  When nothing
    but slashes follows, the slashes of the scheme go too, and cleaning
    the result again puts [https://] in front of it. *)
Theorem clean_url_twice :
  (rstrip "/" rest <> "" ->
     FeedFinder._clean_url url = (scheme ++ rstrip "/" rest)%string
     /\ FeedFinder._clean_url (FeedFinder._clean_url url) = FeedFinder._clean_url url)
  /\ (rstrip "/" rest = "" ->
      FeedFinder._clean_url url = rstrip "/" scheme
      /\ FeedFinder._clean_url (FeedFinder._clean_url url)
         = ("https://" ++ rstrip "/" scheme)%string).
Proof.
  assert (Hclean : FeedFinder._clean_url url = rstrip "/" (scheme ++ rest))
    by (rewrite <- Hsplit; reflexivity).
  rewrite Hclean, rstrip_app. split.
  - intros Hne. destruct (rstrip "/" rest) as [ | y r] eqn:Hr; [congruence | ].
    split; [reflexivity | ].
    change (FeedFinder._clean_url (scheme ++ String y r))
      with (rstrip "/" (with_scheme (scheme ++ String y r))).
    assert (Hw : with_scheme (scheme ++ String y r) = (scheme ++ String y r)%string).
    { unfold with_scheme. destruct Hscheme as [-> | ->]; rewrite startswith_app;
        [reflexivity | now rewrite orb_true_r]. }
    rewrite Hw, rstrip_app.
    assert (Hfix : rstrip "/" (String y r) = String y r).
    { rewrite <- Hr. apply rstrip_fixed. apply rstrip_spec. }
    now rewrite Hfix.
  - intros ->. split; [reflexivity | ].
    destruct Hscheme as [-> | ->]; reflexivity.
Qed.

End CleanTwice.

(** X14.  An anchor is followed exactly when its text contains [rss],
    [feed], [atom] or [subscribe] in any mix of cases, as a substring: then
    its [href] is resolved against the page and validated like any
    candidate, and a reference that cannot be resolved ends the scan with
    the resolver's error, nothing having been requested for it.  Any other
    anchor costs nothing: no event, no change of state. *)
Theorem anchor_step_spec (E : Env) (self : FeedFinder.t) (session : Session)
    (url : string) (feeds : list Feed) (link : Element) (s : State) :
  let followed :=
    mentions "rss" (get_text link) \/ mentions "feed" (get_text link)
    \/ mentions "atom" (get_text link) \/ mentions "subscribe" (get_text link) in
  (followed ->
     (forall u, urljoin E url (href_of link) = Ret u ->
        FeedFinder.anchor_step E self session url feeds link s
        = check_step E self session feeds u s)
     /\ (forall e, urljoin E url (href_of link) = Exc e ->
           FeedFinder.anchor_step E self session url feeds link s = (Exc e, s, [])))
  /\ (~ followed ->
      FeedFinder.anchor_step E self session url feeds link s = (Ret feeds, s, [])).
Proof.
  intros followed.
  assert (Hiff : FeedFinder.mentions_feed (lower (get_text link)) = true <-> followed).
  { unfold FeedFinder.mentions_feed, followed. cbn [existsb].
    rewrite !orb_true_iff.
    rewrite (contains_lower_iff "rss" _ eq_refl), (contains_lower_iff "feed" _ eq_refl),
      (contains_lower_iff "atom" _ eq_refl), (contains_lower_iff "subscribe" _ eq_refl).
    intuition discriminate. }
  unfold FeedFinder.anchor_step, href_of.
  destruct (FeedFinder.mentions_feed (lower (get_text link))).
  - split; [ | intros Hno; exfalso; apply Hno, Hiff; reflexivity].
    intros _. split.
    + intros u ->. now rewrite bind_lift_ret.
    + now intros e ->.
  - split; [ | reflexivity]. intros Hyes. apply Hiff in Hyes. discriminate Hyes.
Qed.

(** X17.  [process_file] hands the batch the URLs read from the rows and
    writes only once the batch has returned: a batch that raises leaves
    nothing written; otherwise the output is the header followed by the
    rows of the results in the order the batch returned them, every row has
    five fields, and there are more rows than results. *)
Theorem process_file_output (process_urls : list string -> M (list SiteResult))
    (rows : list (list (string * string))) (s s' : State)
    (r : res (list (list string))) (ev : list Event) :
  FeedFinder.process_file process_urls rows s = (r, s', ev) ->
  (forall e, r = Exc e ->
     process_urls (FeedFinder.process_file_urls rows) s = (Exc e, s', ev))
  /\ (forall out, r = Ret out ->
      exists results,
        process_urls (FeedFinder.process_file_urls rows) s = (Ret results, s', ev)
        /\ out = FeedFinder.HEADER :: flat_map FeedFinder.result_rows results
        /\ Forall (fun row => List.length row = 5%nat) out
        /\ List.length out = S (list_sum (map row_count results))
        /\ (List.length results < List.length out)%nat).
Proof.
  unfold FeedFinder.process_file. intros H. apply bind_inv in H.
  destruct H as [(results & s1 & ev1 & ev2 & Hb & Hr & ->) | (e & Hb & ->)].
  - injection Hr as <- <- <-. rewrite app_nil_r. split; [discriminate | ].
    intros out [= <-]. exists results.
    destruct (process_file_rows_shape results) as (_ & H5 & Hlen & Hmin & _).
    repeat split; assumption.
  - split; [now intros e' [= <-] | discriminate].
Qed.

(** X18.  A run of [find_feed] that found no feed is written as one row:
    the cleaned URL (not the URL as given), two empty fields, the status,
    and [No feeds found] for a [success], the failure's message for an
    [error] ([No feeds found] again when that message is empty). *)
Theorem find_feed_placeholder_row (E : Env) (self : FeedFinder.t) (raw : string)
    (s s' : State) (r : SiteResult) (ev : list Event) :
  FeedFinder.find_feed E self raw s = (Ret r, s', ev) ->
  feeds r = [] ->
  exists message,
    FeedFinder.result_rows r
    = [[FeedFinder._clean_url raw; ""; ""; FeedFinder.status_str (status r); message]]
    /\ (status r = success -> message = "No feeds found")
    /\ (status r = error ->
        exists e, error_message r = Some e
                  /\ message = match e with EmptyString => "No feeds found" | _ => e end).
Proof.
  unfold FeedFinder.find_feed, asyncio_run. intros Hrun Hnil.
  destruct (running_loop E); [discriminate Hrun | ].
  destruct (FeedFinder.discover_body E self (FeedFinder._clean_url raw) (with_feeds [] s))
    as [[r1 s1] ev1] eqn:Hb.
  rewrite (discover_of_body E self raw s _ _ _ Hb) in Hrun. injection Hrun as <- _ _.
  cbn [feeds] in Hnil. unfold FeedFinder.result_rows. cbn [feeds url status error_message].
  rewrite Hnil. destruct r1 as [[] | e]; eexists; (split; [reflexivity | ]).
  - split; [reflexivity | discriminate].
  - split; [discriminate | ]. intros _. exists e. split; [reflexivity | ].
    now destruct e.
Qed.

(** ** Concrete runs *)

(** The site with an Atom document at [/atom.xml] and 404 elsewhere: one
    feed, of type [atom], found by the known-path phase. *)
Example atom_site_discovery :
  fst (fst (FeedFinder._discover_feeds (Scenario.env_of Scenario.atom_site) Scenario.finder
              "blog.example/" Scenario.s0))
  = Ret {| url := "https://blog.example";
           feeds := [{| feed_url := "https://blog.example/atom.xml";
                        feed_type := atom; feed_title := "News" |}];
           status := success; error_message := None |}.
Proof. vm_compute. reflexivity. Qed.

(** The page with a feed [link] tag without [href]: the home page is
    requested once for the scan and once more as a candidate. *)
Example nohref_site_requests_page_twice :
  count_gets "https://blog.example"
    (snd (FeedFinder._discover_feeds (Scenario.env_of Scenario.nohref_site) Scenario.finder
            "blog.example/" Scenario.s0)) = 2%nat.
Proof. vm_compute. reflexivity. Qed.

(** A URL whose host opens a bracket: the first join raises inside [try],
    and the run is an [error] for which nothing was requested. *)
Example malformed_url_is_an_error :
  FeedFinder._discover_feeds (Scenario.env_of Scenario.atom_site) Scenario.finder
    "[bad" Scenario.s0
  = (Ret {| url := "https://[bad"; feeds := [];
            status := error; error_message := Some "Invalid IPv6 URL" |},
     Scenario.s0, []).
Proof. vm_compute. reflexivity. Qed.

(** C4, as the claim has it, fails: with 1026 attempts allowed and a base
    delay of 0.0, the operation that always fails is invoked 1025 times, not
    1026, and what [execute] raises is not the operation's failure but the
    [OverflowError] of the delay after attempt 1025. *)
Lemma execute_overflows_after_1025_attempts :
  RetryStrategy.max_retries Run.patient = 1026
  /\ fst (fst Run.overflowing) = Exc "int too large to convert to float"
  /\ fst (fst Run.overflowing) <> Exc "connection refused"
  /\ gets (snd Run.overflowing) = repeat "u" 1025.
Proof.
  split; [reflexivity | ].
  assert (Hrun : fst (fst Run.overflowing) = Exc "int too large to convert to float")
    by (vm_compute; reflexivity).
  split; [exact Hrun | split; [rewrite Hrun; discriminate | vm_compute; reflexivity]].
Qed.

(** C5, as the claim has it, fails: when the parser raises on a body that
    came with status 200, the validation step raises too; it does not
    return [None]. *)
Lemma validate_raises_when_parser_raises :
  FeedFinder.validate (Scenario.env_of Scenario.crashing_site) "https://blog.example/rss"
    "boom" 200 Scenario.s0
  = (Exc "parser crashed", Scenario.s0, [EParse "boom"])
  /\ fst (fst (FeedFinder._check_feed_url (Scenario.env_of Scenario.crashing_site)
                 Scenario.finder Scenario.session0 "https://blog.example/rss" Scenario.s0))
     = Exc "parser crashed"
  /\ fst (fst (FeedFinder._check_feed_url (Scenario.env_of Scenario.crashing_site)
                 Scenario.finder Scenario.session0 "https://blog.example/rss" Scenario.s0))
     <> Ret None.
Proof. split; [reflexivity | split; [reflexivity | discriminate]]. Qed.

(** C6, as the claim has it, fails: the parser raises on the second known
    path after the first one validated; the result has status [error] and
    still lists the first feed. *)
Lemma error_result_keeps_feeds :
  fst (fst Run.crashing) = Ret Run.crashing_result
  /\ status Run.crashing_result = error
  /\ feeds Run.crashing_result <> [].
Proof. split; [vm_compute; reflexivity | split; [reflexivity | discriminate]]. Qed.



(** C1 on two sites.  On the site with an Atom feed at [/atom.xml] the run
    ends with the known-path phase.  On the site without any known path the
    home page is fetched and scanned, and both its candidates are feeds. *)
Lemma fallback_iff_no_known_path_feed_witness :
  (exists st msg,
     FeedFinder._discover_feeds (Scenario.env_of Scenario.atom_site) Scenario.finder
       "blog.example/" Scenario.s0
     = (Ret {| url := FeedFinder._clean_url "blog.example/";
               feeds := result_feeds (snd (fst Run.atom_known_paths));
               status := st; error_message := msg |},
        snd (fst Run.atom_known_paths), snd Run.atom_known_paths))
  /\
  (exists s' ev,
     FeedFinder._discover_feeds (Scenario.env_of Scenario.linked_site) Scenario.finder
       "blog.example/" Scenario.s0
     = (Ret {| url := FeedFinder._clean_url "blog.example/";
               feeds := [Run.feed_at "/news"; Run.feed_at "/news"];
               status := success; error_message := None |}, s', ev)).
Proof.
  split.
  - refine (proj1 (fallback_iff_no_known_path_feed
                     (Scenario.env_of Scenario.atom_site) Scenario.finder "blog.example/"
                     Scenario.s0 Scenario.session0
                     (fst (fst Run.atom_known_paths)) (snd (fst Run.atom_known_paths))
                     (snd Run.atom_known_paths) eq_refl _) _).
    + vm_compute. reflexivity.
    + vm_compute. discriminate.
  - destruct (proj2 (fallback_iff_no_known_path_feed
                       (Scenario.env_of Scenario.linked_site) Scenario.finder "blog.example/"
                       Scenario.s0 Scenario.session0
                       (fst (fst Run.linked_known_paths)) (snd (fst Run.linked_known_paths))
                       (snd Run.linked_known_paths) eq_refl
                       ltac:(vm_compute; reflexivity))
                ltac:(vm_compute; reflexivity) ltac:(vm_compute; reflexivity))
      as (fetched & s2 & ev2 & Hf & _ & Hscan).
    vm_compute in Hf. injection Hf as <- <- <-.
    do 2 eexists.
    eapply (Hscan "<html>both</html>"
              [Scenario.link_tag [("type", "application/rss+xml"); ("href", "/news")];
               Scenario.a_tag "/news" "RSS Feed"]
              ["https://blog.example/news"; "https://blog.example/news"]
              [Run.feed_at "/news"; Run.feed_at "/news"]).
    + reflexivity.
    + discriminate.
    + reflexivity.
    + reflexivity.
    + vm_compute. reflexivity.
Defined.

(** C2 on the site that serves feeds at [/feed] and [/rss.xml]. *)
Lemma known_paths_all_probed_witness :
  FeedFinder._discover_feeds (Scenario.env_of Scenario.two_feed_site) Scenario.finder
    "blog.example/" Scenario.s0
  = (Ret Run.two_feeds_result, snd (fst Run.two_feeds), snd Run.two_feeds)
  /\ status Run.two_feeds_result = success
  /\ exists session outcomes s1 ev1,
       probes (Scenario.env_of Scenario.two_feed_site) Scenario.finder session
         (FeedFinder._clean_url "blog.example/") FeedFinder.COMMON_PATHS
         (with_feeds [] Scenario.s0) outcomes s1 ev1
       /\ List.length outcomes = 16%nat
       /\ (hits outcomes <> [] -> feeds Run.two_feeds_result = hits outcomes).
Proof.
  assert (Hrun : FeedFinder._discover_feeds (Scenario.env_of Scenario.two_feed_site)
                   Scenario.finder "blog.example/" Scenario.s0
                 = (Ret Run.two_feeds_result, snd (fst Run.two_feeds), snd Run.two_feeds))
    by (vm_compute; reflexivity).
  split; [exact Hrun | split; [reflexivity | ]].
  destruct (known_paths_all_probed (Scenario.env_of Scenario.two_feed_site) Scenario.finder
              "blog.example/" Scenario.s0 _ Run.two_feeds_result _ Hrun eq_refl)
    as (session & outcomes & s1 & ev1 & ev2 & _ & Hp & Hlen & _ & Hhits & _).
  exists session, outcomes, s1, ev1.
  split; [exact Hp | split; [exact Hlen | ]].
  intros Hne. exact (proj1 (Hhits Hne)).
Defined.

(** C3 on a site that cannot be reached: three attempts, then the pair. *)
Lemma fetch_url_absorbs_failure_witness :
  FeedFinder._fetch_url (Scenario.env_of Scenario.unreachable_site) Scenario.finder
    Scenario.session0 "https://down.example/feed" Scenario.s0
  = (Ret (Some ("", 0)),
     {| clock := 103; last_request := 100; requests := 3; result_feeds := [] |},
     [ELockAcquire; ERead 0; EWrite 100; ELockRelease]
     ++ [EGet "https://down.example/feed"; EWarning 1 "connection refused" 1; ESleep 1;
         EGet "https://down.example/feed"; EWarning 2 "connection refused" 2; ESleep 2;
         EGet "https://down.example/feed"]
     ++ [EError "https://down.example/feed" "connection refused"]).
Proof.
  apply (fetch_url_absorbs_failure (Scenario.env_of Scenario.unreachable_site)
           Scenario.finder Scenario.session0 "https://down.example/feed" Scenario.s0
           {| clock := 100; last_request := 100; requests := 0; result_feeds := [] |}).
  - vm_compute. reflexivity.
  - vm_compute. reflexivity.
Defined.

(** C4 with the default strategy: an operation that fails twice and then
    succeeds, and one that fails three times. *)
Lemma execute_retries_witness :
  (exists s' ev,
     RetryStrategy.execute Run.default_retries (scripted Run.flaky "u") Scenario.s0
     = (Ret (Some ("<rss/>", 200)), s', ev)
     /\ gets ev = ["u"; "u"; "u"] /\ sleeps ev = [1%Q; 2%Q])
  /\
  (exists s' ev,
     RetryStrategy.execute Run.default_retries (scripted Run.always_failing "u") Scenario.s0
     = (Exc "connection refused", s', ev)
     /\ gets ev = ["u"; "u"; "u"] /\ sleeps ev = [1%Q; 2%Q]).
Proof.
  assert (Hfinite : Forall finite_float (delays Run.default_retries 2)).
  { repeat constructor; vm_compute; discriminate. }
  split.
  - refine (proj1 (execute_retries Run.default_retries Run.flaky "u" Scenario.s0 2 _ _ _ Hfinite)
              ("<rss/>", 200) eq_refl).
    + reflexivity.
    + lia.
    + intros [ | [ | j]] Hj; [now exists "timeout" | now exists "timeout" | lia].
  - refine (proj2 (execute_retries Run.default_retries Run.always_failing "u"
                     Scenario.s0 2 _ _ _ Hfinite)
              "connection refused" eq_refl eq_refl).
    + reflexivity.
    + lia.
    + intros j _. now exists "connection refused".
Defined.

(** C5 on an empty body and on an Atom document. *)
Lemma validate_spec_witness :
  FeedFinder.validate (Scenario.env_of Scenario.atom_site) "https://blog.example/atom.xml"
    "" 200 Scenario.s0 = (Ret None, Scenario.s0, [])
  /\
  exists ty,
    FeedFinder.validate (Scenario.env_of Scenario.atom_site) "https://blog.example/atom.xml"
      "<feed xmlns='http://www.w3.org/2005/Atom'/>" 200 Scenario.s0
    = (Ret (Some {| feed_url := "https://blog.example/atom.xml"; feed_type := ty;
                    feed_title := "News" |}), Scenario.s0,
       [EParse "<feed xmlns='http://www.w3.org/2005/Atom'/>"])
    /\ (ty = atom <-> mentions "atom" "<feed xmlns='http://www.w3.org/2005/Atom'/>").
Proof.
  split.
  - apply (proj1 (validate_spec (Scenario.env_of Scenario.atom_site)
                    "https://blog.example/atom.xml" "" 200 Scenario.s0)).
    now right.
  - destruct (proj1 (proj1 (proj2 (validate_spec (Scenario.env_of Scenario.atom_site)
                                     "https://blog.example/atom.xml"
                                     "<feed xmlns='http://www.w3.org/2005/Atom'/>" 200
                                     Scenario.s0)
                              eq_refl ltac:(discriminate)) _ eq_refl)
                [("title", "News")] eq_refl eq_refl ltac:(discriminate))
      as (ty & Hv & Hatom & _).
    exists ty. split; [exact Hv | exact Hatom].
Defined.

(** C6 on the site whose second known path makes the parser raise. *)
Lemma error_result_feeds_witness :
  FeedFinder._discover_feeds (Scenario.env_of Scenario.crashing_site) Scenario.finder
    "blog.example/" Scenario.s0
  = (Ret Run.crashing_result, snd (fst Run.crashing), snd Run.crashing)
  /\ status Run.crashing_result = error
  /\ exists done path rest outcomes sm evm,
       FeedFinder.COMMON_PATHS = done ++ path :: rest
       /\ probes (Scenario.env_of Scenario.crashing_site) Scenario.finder Scenario.session0
            (FeedFinder._clean_url "blog.example/") done (with_feeds [] Scenario.s0)
            outcomes sm evm
       /\ feeds Run.crashing_result = hits outcomes
       /\ error_message Run.crashing_result = Some "parser crashed".
Proof.
  assert (Hrun : FeedFinder._discover_feeds (Scenario.env_of Scenario.crashing_site)
                   Scenario.finder "blog.example/" Scenario.s0
                 = (Ret Run.crashing_result, snd (fst Run.crashing), snd Run.crashing))
    by (vm_compute; reflexivity).
  split; [exact Hrun | split; [reflexivity | ]].
  refine (proj2 (proj2 (error_result_feeds (Scenario.env_of Scenario.crashing_site)
                          Scenario.finder "blog.example/" Scenario.s0 _
                          Run.crashing_result _ Hrun eq_refl)
                   Scenario.session0 (fst (fst Run.crashing_known_paths))
                   (snd (fst Run.crashing_known_paths)) (snd Run.crashing_known_paths)
                   eq_refl _) "parser crashed" _).
  - vm_compute. reflexivity.
  - vm_compute. reflexivity.
Defined.



(** X4 on a strategy that allows no attempt. *)
Lemma execute_without_attempts_witness :
  RetryStrategy.execute (RetryStrategy.init (Some 0) None)
    (scripted Run.always_failing "u") Scenario.s0
  = (Ret None, Scenario.s0, []).
Proof.
  apply (execute_without_attempts (RetryStrategy.init (Some 0) None)).
  simpl. lia.
Defined.

(** X8 on the unreachable site: three requests, one lock. *)
Lemma fetch_url_requests_witness :
  lock_acquisitions
    (snd (FeedFinder._fetch_url (Scenario.env_of Scenario.unreachable_site) Scenario.finder
            Scenario.session0 "https://down.example/feed" Scenario.s0)) = 1%nat
  /\ exists k,
       gets (snd (FeedFinder._fetch_url (Scenario.env_of Scenario.unreachable_site)
                    Scenario.finder Scenario.session0 "https://down.example/feed"
                    Scenario.s0))
       = repeat "https://down.example/feed" k
       /\ (k <= 3)%nat
       /\ requests (snd (fst (FeedFinder._fetch_url
                                (Scenario.env_of Scenario.unreachable_site) Scenario.finder
                                Scenario.session0 "https://down.example/feed" Scenario.s0)))
          = (requests Scenario.s0 + k)%nat.
Proof.
  apply (fetch_url_requests (Scenario.env_of Scenario.unreachable_site) Scenario.finder
           Scenario.session0 "https://down.example/feed" Scenario.s0 _
           (fst (fst (FeedFinder._fetch_url (Scenario.env_of Scenario.unreachable_site)
                        Scenario.finder Scenario.session0 "https://down.example/feed"
                        Scenario.s0)))).
  vm_compute. reflexivity.
Defined.

(** X9 on the known-path phase of the site with an Atom feed. *)
Lemma known_path_requests_witness :
  Forall (known_path_url (Scenario.env_of Scenario.atom_site)
            (FeedFinder._clean_url "blog.example/"))
         (gets (snd Run.atom_known_paths))
  /\ (List.length (gets (snd Run.atom_known_paths)) <= 3 * 16)%nat
  /\ (lock_acquisitions (snd Run.atom_known_paths) <= 16)%nat
  /\ (fst (fst Run.atom_known_paths) = Ret tt ->
      lock_acquisitions (snd Run.atom_known_paths) = 16%nat)
  /\ (List.length (parses (snd Run.atom_known_paths)) <= 16)%nat.
Proof.
  apply (known_path_requests (Scenario.env_of Scenario.atom_site) Scenario.finder
           Scenario.session0 (FeedFinder._clean_url "blog.example/")
           (with_feeds [] Scenario.s0) (snd (fst Run.atom_known_paths))).
  vm_compute. reflexivity.
Defined.

(** X6 on a finder built with [requests_per_second=0]. *)
Lemma zero_rate_fails_before_any_request_witness :
  FeedFinder._discover_feeds (Scenario.env_of Scenario.atom_site)
    (FeedFinder.init None None None (Some (Int 0))) "blog.example/" Scenario.s0
  = (Ret {| url := FeedFinder._clean_url "blog.example/"; feeds := [];
            status := error; error_message := Some "division by zero" |},
     with_feeds [] Scenario.s0, [ELockAcquire; ELockRelease]).
Proof.
  apply (zero_rate_fails_before_any_request (Scenario.env_of Scenario.atom_site)
           (FeedFinder.init None None None (Some (Int 0))) "blog.example/" Scenario.s0
           Scenario.session0 "https://blog.example/feed"); reflexivity.
Defined.


(** X12 on the site that answers 404 everywhere. *)
Lemma fallback_skips_bad_page_witness :
  FeedFinder._discover_feeds (Scenario.env_of Case.empty_site) Scenario.finder
    "blog.example/" Scenario.s0
  = (Ret {| url := FeedFinder._clean_url "blog.example/"; feeds := [];
            status := success; error_message := None |},
     snd (fst Case.empty_fetch), snd Case.empty_known_paths ++ snd Case.empty_fetch)
  /\ (running_loop (Scenario.env_of Case.empty_site) = false ->
      FeedFinder.find_feed (Scenario.env_of Case.empty_site) Scenario.finder
        "blog.example/" Scenario.s0
      = (Ret {| url := FeedFinder._clean_url "blog.example/"; feeds := [];
                status := success; error_message := None |},
         snd (fst Case.empty_fetch), snd Case.empty_known_paths ++ snd Case.empty_fetch)).
Proof.
  apply (fallback_skips_bad_page (Scenario.env_of Case.empty_site) Scenario.finder
           "blog.example/" Scenario.s0 Scenario.session0
           (snd (fst Case.empty_known_paths)) (snd (fst Case.empty_fetch))
           (snd Case.empty_known_paths) (snd Case.empty_fetch) "" 404).
  - reflexivity.
  - vm_compute. reflexivity.
  - vm_compute. reflexivity.
  - vm_compute. reflexivity.
  - left. discriminate.
Defined.



(** X17 on the input of three rows and the sequential batch. *)
Lemma process_file_output_witness :
  exists results,
    Case.one_by_one (Scenario.env_of Case.empty_site) Scenario.finder
      (FeedFinder.process_file_urls Case.input) Scenario.s0
    = (Ret results,
       snd (fst (FeedFinder.process_file
                   (Case.one_by_one (Scenario.env_of Case.empty_site) Scenario.finder)
                   Case.input Scenario.s0)),
       snd (FeedFinder.process_file
              (Case.one_by_one (Scenario.env_of Case.empty_site) Scenario.finder)
              Case.input Scenario.s0))
    /\ [FeedFinder.HEADER;
        ["https://blog.example"; ""; ""; "success"; "No feeds found"];
        ["https://news.example"; ""; ""; "success"; "No feeds found"]]
       = FeedFinder.HEADER :: flat_map FeedFinder.result_rows results
    /\ Forall (fun row => List.length row = 5%nat)
         [FeedFinder.HEADER;
          ["https://blog.example"; ""; ""; "success"; "No feeds found"];
          ["https://news.example"; ""; ""; "success"; "No feeds found"]]
    /\ List.length
         [FeedFinder.HEADER;
          ["https://blog.example"; ""; ""; "success"; "No feeds found"];
          ["https://news.example"; ""; ""; "success"; "No feeds found"]]
       = S (list_sum (map row_count results))
    /\ (List.length results < 3)%nat.
Proof.
  refine (proj2 (process_file_output
                   (Case.one_by_one (Scenario.env_of Case.empty_site) Scenario.finder)
                   Case.input Scenario.s0 _
                   (Ret [FeedFinder.HEADER;
                         ["https://blog.example"; ""; ""; "success"; "No feeds found"];
                         ["https://news.example"; ""; ""; "success"; "No feeds found"]])
                   _ _) _ eq_refl).
  vm_compute. reflexivity.
Defined.

(** X18 on the unreachable site. *)
Lemma find_feed_placeholder_row_witness :
  exists message,
    FeedFinder.result_rows Case.no_feeds
    = [[FeedFinder._clean_url "blog.example/"; ""; "";
        FeedFinder.status_str (status Case.no_feeds); message]]
    /\ (status Case.no_feeds = success -> message = "No feeds found")
    /\ (status Case.no_feeds = error ->
        exists e, error_message Case.no_feeds = Some e
                  /\ message = match e with EmptyString => "No feeds found" | _ => e end).
Proof.
  apply (find_feed_placeholder_row (Scenario.env_of Scenario.unreachable_site)
           Scenario.finder "blog.example/" Scenario.s0 (snd (fst Case.unreachable_run))
           Case.no_feeds (snd Case.unreachable_run)).
  - vm_compute. reflexivity.
  - reflexivity.
Defined.

(** X19 on a URL without scheme and with a trailing slash. *)
Lemma clean_url_twice_witness :
  (rstrip "/" "example.com/" <> "" ->
     FeedFinder._clean_url "example.com/" = ("https://" ++ rstrip "/" "example.com/")%string
     /\ FeedFinder._clean_url (FeedFinder._clean_url "example.com/")
        = FeedFinder._clean_url "example.com/")
  /\ (rstrip "/" "example.com/" = "" ->
      FeedFinder._clean_url "example.com/" = rstrip "/" "https://"
      /\ FeedFinder._clean_url (FeedFinder._clean_url "example.com/")
         = ("https://" ++ rstrip "/" "https://")%string).
Proof.
  apply (clean_url_twice "example.com/" "https://" "example.com/").
  - now right.
  - reflexivity.
Defined.
